(** * Shut the Box: the rule engine, its policies and the score summary

    A shallow embedding of [game.py] (the combination enumerator and the
    [Game] class), of the policy functions of [shutbox/policies.py],
    [simulate_all_strategies.py] and [scripts/collect_runs.py], and of the
    ranking computed by [analyze_results.py].

    Python integers are unbounded and are modelled by [Z]; tuples and lists
    of tiles by [list Z]; the [tiles] dict of a game by an insertion-ordered
    association list, because [open_tiles] and the policy helpers iterate
    over [dict.items()] in insertion order. *)

From Stdlib Require Import ZArith List Bool Lia QArith Ascii.
From stdpp Require Import base list sorting strings gmap pretty.

Local Open Scope Z_scope.

(** ** Python built-ins used by the sources *)

Module Py.

(** [sum(xs)] over integers. *)
Definition sum (xs : list Z) : Z := foldr Z.add 0 xs.

(** [sorted(xs)] over integers. Every correct sort returns the same list on
    integers, so the merge sort of stdpp stands for Timsort. *)
Definition sorted (xs : list Z) : list Z := merge_sort Z.le xs.

(** Comparison of tuples of integers, [a < b]: lexicographic, a proper
    prefix is smaller. *)
Fixpoint tuple_ltb (a b : list Z) : bool :=
  match a, b with
  | _, [] => false
  | [], _ :: _ => true
  | x :: a', y :: b' =>
      if x <? y then true else if x =? y then tuple_ltb a' b' else false
  end.

Definition tuple_lt (a b : list Z) : Prop := tuple_ltb a b = true.
Definition tuple_le (a b : list Z) : Prop := tuple_ltb b a = false.

#[global] Instance tuple_lt_dec a b : Decision (tuple_lt a b).
Proof. unfold tuple_lt. apply _. Defined.
#[global] Instance tuple_le_dec a b : Decision (tuple_le a b).
Proof. unfold tuple_le. apply _. Defined.

(** [sorted(set(out))] over tuples: the distinct elements in ascending
    order. The iteration order of the intermediate [set] is unspecified; the
    sort that follows makes the result independent of it. *)
Definition sorted_set (out : list (list Z)) : list (list Z) :=
  merge_sort tuple_le (remove_dups out).

(** [itertools.combinations(xs, k)]: the [k]-element subsequences of [xs], in
    lexicographic order of the positions they are taken from. *)
Fixpoint combinations (xs : list Z) (k : nat) : list (list Z) :=
  match k with
  | O => [[]]
  | S k' =>
      match xs with
      | [] => []
      | x :: xs' => map (cons x) (combinations xs' k') ++ combinations xs' k
      end
  end.

(** [range(lo, hi)] over naturals, used for the loop counters. *)
Definition range (lo hi : nat) : list nat := seq lo (hi - lo).

(** [min(xs, key=key)] on a non-empty list: the first element whose key is
    minimal. [best] is the running minimum. *)
Fixpoint min_by_from {A} (key : A -> Z) (best : A) (xs : list A) : A :=
  match xs with
  | [] => best
  | x :: xs' =>
      if key x <? key best then min_by_from key x xs' else min_by_from key best xs'
  end.

(** [min(xs, key=key)]; [None] stands for the [ValueError] raised on an
    empty sequence. *)
Definition min_by {A} (key : A -> Z) (xs : list A) : option A :=
  match xs with
  | [] => None
  | x :: xs' => Some (min_by_from key x xs')
  end.

End Py.

(** ** game.py *)

(** [TileSet = Tuple[int, ...]] *)
Definition TileSet := list Z.

(** [combos_that_sum(nums, target)] *)
Definition combos_that_sum (nums : list Z) (target : Z) : list TileSet :=
  let nums := Py.sorted nums in
  let out :=
    flat_map
      (fun k => filter (fun c => Py.sum c = target) (Py.combinations nums k))
      (Py.range 1 (length nums + 1)) in
  Py.sorted_set out.

(** A Python [dict] from tiles to their open flag, in insertion order. *)
Module Dict.

Definition t := list (Z * bool).

(** [d.get(k)], also the test [k in d]. *)
Fixpoint get (d : t) (k : Z) : option bool :=
  match d with
  | [] => None
  | (k', v) :: d' => if k' =? k then Some v else get d' k
  end.

(** [d.get(k, False)] *)
Definition get_or_false (d : t) (k : Z) : bool := default false (get d k).

(** [d[k] = v]: an existing key keeps its position, a new key goes last. *)
Fixpoint set (d : t) (k : Z) (v : bool) : t :=
  match d with
  | [] => [(k, v)]
  | (k', v') :: d' => if k' =? k then (k', v) :: d' else (k', v') :: set d' k v
  end.

(** [d.keys()] *)
Definition keys (d : t) : list Z := map fst d.

(** The keys of a [dict] are pairwise distinct. *)
Definition wf (d : t) : Prop := NoDup (keys d).

End Dict.

(** The fields of the [Game] dataclass that the rules read and write. The
    [rng] field is left out: the values it returns are inputs of [roll]. *)
Record Game := mkGame {
  tiles_max : Z;
  single_die_rule : bool;
  tiles : Dict.t;
  over : bool;
  last_roll : option Z
}.

(** The results of the calls [rng.randint(1, 6)] that a roll may make: the
    first call gives [die1], the second one [die2]. *)
Record Dice := mkDice { die1 : Z; die2 : Z }.

Definition dice_ok (d : Dice) : Prop :=
  1 <= die1 d <= 6 /\ 1 <= die2 d <= 6.

(** [range(1, n + 1)] over integers. *)
Definition tile_ids (n : Z) : list Z := map Z.of_nat (seq 1 (Z.to_nat n)).

(** [Game(tiles_max, single_die_rule)] with [__post_init__]; [None] stands
    for the [ValueError] raised when [tiles_max < 1]. *)
Definition new_game (n : Z) (single : bool) : option Game :=
  if n <? 1 then None
  else Some {| tiles_max := n; single_die_rule := single;
               tiles := map (fun i => (i, true)) (tile_ids n);
               over := false; last_roll := None |}.

(** [Game.open_tiles] *)
Definition open_tiles (g : Game) : list Z :=
  map fst (filter (fun kv => snd kv = true) (tiles g)).

(** [Game.score] *)
Definition score (g : Game) : Z := Py.sum (open_tiles g).

(** [Game.can_use_single_die] *)
Definition can_use_single_die (g : Game) : bool :=
  if negb (single_die_rule g) then false
  else
    let high := filter (fun i => i <= tiles_max g) [7; 8; 9] in
    forallb (fun i => negb (Dict.get_or_false (tiles g) i)) high.

(** [Game.available_moves] *)
Definition available_moves (g : Game) (target : Z) : list TileSet :=
  combos_that_sum (open_tiles g) target.

(** Python truth value of a list: [not xs]. *)
Definition is_empty {A} (xs : list A) : bool :=
  match xs with [] => true | _ => false end.

(** [Game.roll(forced)]; [d] holds what the generator returns if asked. *)
Definition roll (g : Game) (forced : option Z) (d : Dice) : Z * Game :=
  if over g then (default 0 (last_roll g), g)
  else
    let r :=
      match forced with
      | Some v => v
      | None => if can_use_single_die g then die1 d else die1 d + die2 d
      end in
    let g1 := {| tiles_max := tiles_max g; single_die_rule := single_die_rule g;
                 tiles := tiles g; over := over g; last_roll := Some r |} in
    if is_empty (available_moves g1 r)
    then (r, {| tiles_max := tiles_max g1; single_die_rule := single_die_rule g1;
                tiles := tiles g1; over := true; last_roll := last_roll g1 |})
    else (r, g1).

(** The loop [for t in chosen: self.tiles[t] = False]. *)
Definition close_tiles (d : Dict.t) (chosen : list Z) : Dict.t :=
  foldl (fun d t => Dict.set d t false) d chosen.

(** [Game.move(chosen)]. The elements of [chosen] are integers, on which
    [int(x)] is the identity. *)
Definition move (g : Game) (chosen : list Z) : bool * Game :=
  if over g then (false, g)
  else
    match last_roll g with
    | None => (false, g)
    | Some r =>
        let chosen := Py.sorted chosen in
        if negb (bool_decide (chosen ∈ available_moves g r)) then (false, g)
        else
          let g1 := {| tiles_max := tiles_max g;
                       single_die_rule := single_die_rule g;
                       tiles := close_tiles (tiles g) chosen;
                       over := over g; last_roll := None |} in
          if is_empty (open_tiles g1)
          then (true, {| tiles_max := tiles_max g1;
                         single_die_rule := single_die_rule g1;
                         tiles := tiles g1; over := true;
                         last_roll := last_roll g1 |})
          else (true, g1)
    end.

(** [Game.state()], the snapshot read by collaborators. *)
Record Snapshot := mkSnapshot {
  snap_tiles : Dict.t;
  snap_over : bool;
  snap_last_roll : option Z;
  snap_open_tiles : list Z;
  snap_score : Z
}.

Definition state (g : Game) : Snapshot :=
  {| snap_tiles := tiles g; snap_over := over g; snap_last_roll := last_roll g;
     snap_open_tiles := open_tiles g; snap_score := score g |}.

(** The game every script starts from: [Game()]. *)
Definition game9 : Game :=
  {| tiles_max := 9; single_die_rule := true;
     tiles := map (fun i => (i, true)) (tile_ids 9);
     over := false; last_roll := None |}.

(** ** simulate_all_strategies.py *)

(** [rng.choice(xs)] on a non-empty list; [n] is the index the generator
    draws, which is below [len(xs)]. *)
Definition choice {A} (xs : list A) (n : nat) : option A := xs !! n.

(** The key [lambda mv: sum(game.open_tiles()) - sum(mv)]. *)
Definition remaining_key (g : Game) (mv : list Z) : Z :=
  Py.sum (open_tiles g) - Py.sum mv.

(** The comprehension [[mv for mv in moves if len(mv) >= 2]]. *)
Definition multi_tile (moves : list (list Z)) : list (list Z) :=
  filter (fun mv => (2 <= length mv)%nat) moves.

Module Sim.

(** [policy_random(game)]: the policy rolls, then picks. *)
Definition policy_random (g : Game) (d : Dice) (n : nat)
  : option TileSet * Game :=
  let '(r, g) := roll g None d in
  let moves := available_moves g r in
  (if is_empty moves then None else choice moves n, g).

(** [policy_greedy_min_remaining(game)] *)
Definition policy_greedy_min_remaining (g : Game) (d : Dice)
  : option TileSet * Game :=
  let '(r, g) := roll g None d in
  let moves := available_moves g r in
  if is_empty moves then (None, g)
  else (Py.min_by (remaining_key g) moves, g).

(** [policy_human_like(game)]; without a multi-tile move it calls
    [policy_greedy_min_remaining], which rolls again with [d']. *)
Definition policy_human_like (g : Game) (d d' : Dice)
  : option TileSet * Game :=
  let '(r, g) := roll g None d in
  let moves := available_moves g r in
  if is_empty moves then (None, g)
  else
    let multi := multi_tile moves in
    if negb (is_empty multi) then (Py.min_by (remaining_key g) multi, g)
    else policy_greedy_min_remaining g d'.

End Sim.

(** ** shutbox/policies.py and scripts/collect_runs.py *)

(** The pairs of the loops [for i in range(n): for j in range(i + 1, n)]. *)
Fixpoint pair_moves (opens : list Z) (roll_val : Z) : list (list Z) :=
  match opens with
  | [] => []
  | a :: rest =>
      map (fun b => [a; b]) (filter (fun b => a + b = roll_val) rest)
      ++ pair_moves rest roll_val
  end.

(** [_compute_legal_moves(game, roll_val)], the same function as
    [compute_legal_moves] of [collect_runs.py]. *)
Definition compute_legal_moves (g : Game) (roll_val : Z) : list (list Z) :=
  let opens := open_tiles g in
  map (fun t => [t]) (filter (fun t => t = roll_val) opens)
  ++ pair_moves opens roll_val.

(** [_remaining_sum_after(game, mv)] for a move that is not [None]; [Game]
    has no [remaining_sum_after] attribute. *)
Definition remaining_sum_after (g : Game) (mv : list Z) : Z :=
  Py.sum (open_tiles g) - Py.sum mv.

(** [_tiles_to_key(game)], the same function as [tiles_to_str]. *)
Definition tiles_to_key (g : Game) : string :=
  foldr String.append EmptyString
    (map (fun i => if Dict.get_or_false (tiles g) i then pretty i else "X"%string)
       (tile_ids (tiles_max g))).

(** [s.split(sep)] for a one-character separator. *)
Fixpoint split_on (sep : Ascii.ascii) (s : string) : list string :=
  match s with
  | EmptyString => [EmptyString]
  | String c s' =>
      if Ascii.eqb c sep then EmptyString :: split_on sep s'
      else
        match split_on sep s' with
        | [] => [String c EmptyString]
        | w :: ws => String c w :: ws
        end
  end.

(** What a call gives back: a value, or an exception that escapes. *)
Inductive Outcome (A : Type) : Type :=
| Returned (a : A)
| Raised.
Arguments Returned {A} a.
Arguments Raised {A}.

Module Policies.

(** [random_move(game)] *)
Definition random_move (g : Game) (d : Dice) (n : nat)
  : option (list Z) * Game :=
  let '(roll_val, g) := roll g None d in
  let legal := compute_legal_moves g roll_val in
  (if is_empty legal then None else choice legal n, g).

(** [greedy_move(game)] *)
Definition greedy_move (g : Game) (d : Dice) : option (list Z) * Game :=
  let '(roll_val, g) := roll g None d in
  let legal := compute_legal_moves g roll_val in
  if is_empty legal then (None, g)
  else (Py.min_by (remaining_sum_after g) legal, g).

(** [human_move(game)]; its fallback [greedy_move] rolls again with [d']. *)
Definition human_move (g : Game) (d d' : Dice) : option (list Z) * Game :=
  let '(roll_val, g) := roll g None d in
  let legal := compute_legal_moves g roll_val in
  if is_empty legal then (None, g)
  else
    let multi := multi_tile legal in
    if negb (is_empty multi) then (Py.min_by (remaining_sum_after g) multi, g)
    else greedy_move g d'.

Section Table.

(** The JSON object loaded by [table_policy_loader], and Python's [int] on
    strings ([None] when it raises [ValueError]). *)
Variable table : gmap string string.
Variable py_int : string -> option Z.

(** [list(map(int, hit.split("+")))] *)
Definition parse_move (hit : string) : option (list Z) :=
  mapM py_int (split_on "+"%char hit).

(** The closure [pick_move(game)] returned by [table_policy_loader]. *)
Definition pick_move (g : Game) (d : Dice) : Outcome (option (list Z)) * Game :=
  let '(roll_val, g) := roll g None d in
  let legal := compute_legal_moves g roll_val in
  if is_empty legal then (Returned None, g)
  else
    let key := (tiles_to_key g +:+ "|" +:+ pretty roll_val)%string in
    let fallback := Returned (Py.min_by (remaining_sum_after g) legal) in
    match table !! key with
    | Some hit =>
        if negb (String.eqb hit EmptyString) then
          match parse_move hit with
          | None => (Raised, g)
          | Some want =>
              if bool_decide (want ∈ legal) then (Returned (Some want), g)
              else (fallback, g)
          end
        else (fallback, g)
    | None => (fallback, g)
    end.

End Table.

End Policies.

(** One turn of the loop of [run] in [collect_runs.py]: roll, enumerate, pick
    at random, apply with the detected method, which is [Game.move]. The
    result is the roll, the legal moves, the chosen move and the game. *)
Definition collect_step (g : Game) (d : Dice) (n : nat)
  : Z * list (list Z) * option (list Z) * Game :=
  let '(roll_val, g) := roll g None d in
  let legal := compute_legal_moves g roll_val in
  if is_empty legal then (roll_val, legal, None, g)
  else
    match choice legal n with
    | None => (roll_val, legal, None, g)
    | Some mv => (roll_val, legal, Some mv, snd (move g mv))
    end.

(** ** analyze_results.py *)

Module Analyze.

(** A row of [strategy_simulations.csv]. *)
Record Row := mkRow { run_id : Z; strategy : string; row_score : Z }.

Definition string_le (a b : string) : Prop := String.leb a b = true.

#[global] Instance string_le_dec a b : Decision (string_le a b).
Proof. unfold string_le. apply _. Defined.

(** The group keys of [df.groupby("strategy")], which sorts them. *)
Definition group_keys (df : list Row) : list string :=
  merge_sort string_le (remove_dups (map strategy df)).

(** The [score] column of one group. *)
Definition group_scores (df : list Row) (k : string) : list Z :=
  map row_score (filter (fun r => strategy r = k) df).

(** The aggregation ["mean"] of a non-empty group, as an exact rational. The
    floating-point quotient pandas computes is the rounding of this value;
    rounding is monotone, so it keeps every bound by an integer. *)
Definition mean (xs : list Z) : Q := Py.sum xs # Pos.of_nat (length xs).

(** The aggregations ["min"] and ["max"] of a non-empty group. *)
Definition list_min (xs : list Z) : Z :=
  match xs with [] => 0 | x :: xs' => foldr Z.min x xs' end.
Definition list_max (xs : list Z) : Z :=
  match xs with [] => 0 | x :: xs' => foldr Z.max x xs' end.

(** A line of the summary frame. Of its columns, [median_score], the four
    percentiles and [std_dev] are left out: nothing is sorted on them and
    [best] does not read them. *)
Record SummaryRow := mkSummaryRow {
  index : string;
  runs : nat;
  mean_score : Q;
  min_score : Z;
  max_score : Z
}.

(** [df.groupby("strategy")["score"].agg(...)] *)
Definition aggregate (df : list Row) : list SummaryRow :=
  map (fun k =>
         let s := group_scores df k in
         {| index := k; runs := length s; mean_score := mean s;
            min_score := list_min s; max_score := list_max s |})
      (group_keys df).

Definition mean_le (a b : SummaryRow) : Prop :=
  Qle_bool (mean_score a) (mean_score b) = true.

#[global] Instance mean_le_dec a b : Decision (mean_le a b).
Proof. unfold mean_le. apply _. Defined.

(** [summary]: the aggregate, [.sort_values("mean_score")]. The order among
    rows of equal mean is left open by the default sort of pandas; here it
    is the one of the merge sort. *)
Definition summary (df : list Row) : list SummaryRow :=
  merge_sort mean_le (aggregate df).

(** [best = summary.index[0]]; [None] stands for the [IndexError] on an
    empty frame. *)
Definition best (df : list Row) : option string :=
  index <$> head (summary df).






End Analyze.

(** ** Sequences of calls on one game *)

Inductive Call : Type :=
| CallRoll (forced : option Z) (d : Dice)
| CallMove (chosen : list Z).

Inductive Reply : Type :=
| RollReply (r : Z)
| MoveReply (ok : bool).

Definition call (g : Game) (c : Call) : Reply * Game :=
  match c with
  | CallRoll forced d => let '(r, g') := roll g forced d in (RollReply r, g')
  | CallMove chosen => let '(ok, g') := move g chosen in (MoveReply ok, g')
  end.

Fixpoint calls (g : Game) (cs : list Call) : list Reply * Game :=
  match cs with
  | [] => ([], g)
  | c :: cs' =>
      let '(a, g1) := call g c in
      let '(rs, g2) := calls g1 cs' in
      (a :: rs, g2)
  end.

(** What a call answers once the game is over. *)
Definition stable_reply (g : Game) (c : Call) : Reply :=
  match c with
  | CallRoll _ _ => RollReply (default 0 (last_roll g))
  | CallMove _ => MoveReply false
  end.

(** ** Specification vocabulary *)

(** [c] is a non-empty subset of [nums], written as an ascending tuple, whose
    elements sum to [target]. *)
Definition subset_summing (nums : list Z) (target : Z) (c : list Z) : Prop :=
  c ≠ [] ∧ StronglySorted Z.lt c ∧ c ⊆ nums ∧ Py.sum c = target.

(** [res] lists exactly those subsets, without repetition, in lexicographic
    order. *)
Definition enumerates (nums : list Z) (target : Z) (res : list (list Z)) : Prop :=
  (∀ c, c ∈ res ↔ subset_summing nums target c)
  ∧ NoDup res
  ∧ StronglySorted Py.tuple_lt res.

(** ** Boards and games used below *)

(** The board on which only tiles 1 and 9 are open, which the tests reach by
    closing the other tiles in the dict directly. *)
Definition game_1_9 : Game :=
  {| tiles_max := 9; single_die_rule := true;
     tiles := map (fun i => (i, bool_decide (i = 1 ∨ i = 9))) (tile_ids 9);
     over := false; last_roll := None |}.

(** The invariant [__post_init__] sets up: the keys are [1..tiles_max]. *)
Definition board (g : Game) : Prop :=
  Dict.keys (tiles g) = tile_ids (tiles_max g).

(** Every tile above 6 that is on the board is closed. *)
Definition high_tiles_closed (g : Game) : Prop :=
  ∀ t, 6 < t → Dict.get (tiles g) t ≠ Some true.

(** Closing 7, 8 and 9 from the start, by forced rolls. *)
Definition close_7_8_9 : list Call :=
  [CallRoll (Some 7) (mkDice 1 1); CallMove [7];
   CallRoll (Some 8) (mkDice 1 1); CallMove [8];
   CallRoll (Some 9) (mkDice 1 1); CallMove [9]].

(** A board of 10 tiles, and the same after 7, 8 and 9 are closed. *)
Definition game10 : Game :=
  {| tiles_max := 10; single_die_rule := true;
     tiles := map (fun i => (i, true)) (tile_ids 10);
     over := false; last_roll := None |}.

Definition game10_low : Game := (calls game10 close_7_8_9).2.
Definition game9_low : Game := (calls game9 close_7_8_9).2.

(** The answer of a policy comes from a list of one- and two-tile moves. *)
Definition short_move (res : option (list Z)) : Prop :=
  ∀ m, res = Some m → (1 <= length m <= 2)%nat.

(** The full board after the dice 2 and 3. *)
Definition game9_rolled_5 : Game := (roll game9 None (mkDice 2 3)).2.


(** The claim of the interface: nothing of the engine state changes. *)
Definition engine_state_unchanged (g g' : Game) : Prop :=
  tiles g' = tiles g ∧ over g' = over g ∧ last_roll g' = last_roll g.

(** What the policies do: they roll. The board is kept; a game that is over
    is kept whole; otherwise [last_roll] holds a roll [r] and [over] tells
    whether [r] has no legal move. *)
Definition policy_effect (g g' : Game) : Prop :=
  tiles g' = tiles g
  ∧ tiles_max g' = tiles_max g
  ∧ single_die_rule g' = single_die_rule g
  ∧ (over g = true → g' = g)
  ∧ (over g = false →
     ∃ r, last_roll g' = Some r ∧ over g' = is_empty (available_moves g r)).

(** ** visual_demo.py: the engine with a die-count request *)

(** The [Game] class of [visual_demo.py] has the fields and the [move] of
    [game.py]; its eligibility query and its [roll] are written differently. *)
Module Variant.

(** [Game.can_choose_die_count] *)
Definition can_choose_die_count (g : Game) : bool :=
  let high := filter (fun i => i <= tiles_max g) [7; 8; 9] in
  single_die_rule g && forallb (fun i => negb (Dict.get_or_false (tiles g) i)) high.

(** [1 if dice == 1 else 2 if dice == 2 else 2] *)
Definition requested_count (dice : option Z) : nat :=
  match dice with
  | Some 1 => 1
  | Some 2 => 2
  | _ => 2
  end.

(** [Game.roll(forced=..., dice=...)]; the generator is asked [dcount] times. *)
Definition roll (g : Game) (forced dice : option Z) (d : Dice) : Z * Game :=
  if over g then (default 0 (last_roll g), g)
  else
    let dcount := if can_choose_die_count g then requested_count dice else 2%nat in
    let r :=
      match forced with
      | Some v => v
      | None => Py.sum (take dcount [die1 d; die2 d])
      end in
    let g1 := {| tiles_max := tiles_max g; single_die_rule := single_die_rule g;
                 tiles := tiles g; over := over g; last_roll := Some r |} in
    if is_empty (available_moves g1 r)
    then (r, {| tiles_max := tiles_max g1; single_die_rule := single_die_rule g1;
                tiles := tiles g1; over := true; last_roll := last_roll g1 |})
    else (r, g1).

End Variant.

(** ** scripts/print_demo.py: the policies over a list of legal moves *)

Module Demo.

(** [max(c)]; [None] stands for the [ValueError] on an empty tuple. *)
Definition max_of (c : list Z) : option Z :=
  match c with
  | [] => None
  | x :: c' => Some (foldl Z.max x c')
  end.

(** The sort key [(len(c), -max(c))]. *)
Definition greedy_key (c : list Z) : option (nat * Z) :=
  m ← max_of c; Some (length c, - m).

(** Comparison of the keys, [a <= b] on pairs. *)
Definition key_leb (a b : nat * Z) : bool :=
  (a.1 <? b.1)%nat || ((a.1 =? b.1)%nat && (a.2 <=? b.2)).

(** [sorted(xs, key=...)] on moves paired with their keys. The sort is
    stable: an element goes before the later ones with an equal key. *)
Fixpoint insert_by_key (x : (nat * Z) * list Z) (l : list ((nat * Z) * list Z))
  : list ((nat * Z) * list Z) :=
  match l with
  | [] => [x]
  | y :: l' => if key_leb x.1 y.1 then x :: l else y :: insert_by_key x l'
  end.

Definition sorted_by_key (xs : list ((nat * Z) * list Z))
  : list ((nat * Z) * list Z) :=
  foldr insert_by_key [] xs.

(** [greedy_policy(legal_moves)] *)
Definition greedy_policy (legal_moves : list (list Z)) : Outcome (list Z) :=
  if is_empty legal_moves then Returned []
  else
    match mapM (fun c => k ← greedy_key c; Some (k, c)) legal_moves with
    | None => Raised
    | Some keyed =>
        match sorted_by_key keyed with
        | [] => Raised
        | (_, c) :: _ => Returned c
        end
    end.

(** [random_policy(legal_moves, rng)] *)
Definition random_policy (legal_moves : list (list Z)) (n : nat) : option (list Z) :=
  if is_empty legal_moves then Some [] else choice legal_moves n.

(** The score computed on the copy: close the tiles of [mv] in
    [g.tiles.copy()] and sum what is open. *)
Definition score_after (g : Game) (mv : list Z) : Z :=
  Py.sum (map fst (filter (fun kv => snd kv = true) (close_tiles (tiles g) mv))).

(** One turn of the loop of [min_score_policy]; [best] is [best_move] with
    [best_score], [None] while they are [None] and infinity. *)
Definition min_score_step (g : Game) (best : option (list Z * Z)) (mv : list Z)
  : option (list Z * Z) :=
  let s := score_after g mv in
  match best with
  | None => Some (mv, s)
  | Some (bm, bs) =>
      if (s <? bs) || ((s =? bs) && (length mv <? length bm)%nat)
      then Some (mv, s) else best
  end.

(** [min_score_policy(g, legal_moves)] *)
Definition min_score_policy (g : Game) (legal_moves : list (list Z))
  : option (list Z) :=
  if is_empty legal_moves then Some []
  else fst <$> foldl (min_score_step g) None legal_moves.

End Demo.

(** ** The game loops *)

(** [run_one(policy_fn)] of [simulate_all_strategies.py], started on [g]: one
    element of [inputs] holds what the generators return during one turn.
    The answer is the final score, or [Raised] for the [RuntimeError]; [None]
    when [inputs] runs out before the loop ends. *)
Fixpoint run_one {I} (policy : Game → I → option TileSet * Game)
    (g : Game) (inputs : list I) : option (Outcome Z) :=
  if over g then Some (Returned (score g))
  else
    match inputs with
    | [] => None
    | i :: rest =>
        let '(mv, g1) := policy g i in
        match mv with
        | None => Some (Returned (score g1))
        | Some mv =>
            let '(ok, g2) := move g1 mv in
            if ok then run_one policy g2 rest else Some Raised
        end
    end.

(** The three entries of [STRATEGIES], with their inputs packed. *)
Definition strategy_random (g : Game) (i : Dice * nat) :=
  Sim.policy_random g i.1 i.2.
Definition strategy_greedy (g : Game) (i : Dice) :=
  Sim.policy_greedy_min_remaining g i.
Definition strategy_human (g : Game) (i : Dice * Dice) :=
  Sim.policy_human_like g i.1 i.2.

(** ** scripts/collect_runs.py: the rows written *)

(** [sep.join(xs)] *)
Fixpoint join (sep : string) (xs : list string) : string :=
  match xs with
  | [] => EmptyString
  | [x] => x
  | x :: xs' => (x +:+ sep +:+ join sep xs')%string
  end.

(** ["+".join(map(str, m))] *)
Definition move_str (m : list Z) : string := join "+" (map pretty m).

(** A row of the run file. *)
Record RunRow := mkRunRow {
  row_episode : Z;
  row_step : Z;
  row_roll : Z;
  row_tiles_before : string;
  row_legal_moves : string;
  row_chosen_move : string;
  row_tiles_after : string;
  row_remaining_sum_after : Z;
  row_terminal : bool;
  row_final_score : Z
}.

(** One turn of the loop of [run]: the row written and the game after it;
    the flag tells whether the loop goes on. *)
Definition collect_row (ep step : Z) (g : Game) (d : Dice) (n : nat)
  : RunRow * Game * bool :=
  let '(roll_val, g) := roll g None d in
  let legal := compute_legal_moves g roll_val in
  let tiles_before := tiles_to_key g in
  if is_empty legal then
    ({| row_episode := ep; row_step := step; row_roll := roll_val;
        row_tiles_before := tiles_before; row_legal_moves := EmptyString;
        row_chosen_move := EmptyString; row_tiles_after := tiles_before;
        row_remaining_sum_after := remaining_sum_after g [];
        row_terminal := true; row_final_score := score g |}, g, false)
  else
    match choice legal n with
    | None => ({| row_episode := ep; row_step := step; row_roll := roll_val;
                  row_tiles_before := tiles_before; row_legal_moves := EmptyString;
                  row_chosen_move := EmptyString; row_tiles_after := tiles_before;
                  row_remaining_sum_after := remaining_sum_after g [];
                  row_terminal := true; row_final_score := score g |}, g, false)
    | Some mv =>
        let g' := (move g mv).2 in
        ({| row_episode := ep; row_step := step; row_roll := roll_val;
            row_tiles_before := tiles_before;
            row_legal_moves := join ";" (map move_str legal);
            row_chosen_move := move_str mv;
            row_tiles_after := tiles_to_key g';
            row_remaining_sum_after := remaining_sum_after g' mv;
            row_terminal := false; row_final_score := score g' |}, g', true)
    end.

(** ** Vocabulary for the properties of the whole game *)

(** The keys a dict maps to [True], in insertion order. *)
Definition open_keys (d : Dict.t) : list Z :=
  map fst (filter (fun kv => snd kv = true) d).

(** A game is not reopened: what [g'] leaves open was open in [g], in the
    same order, and a tile that reads closed in [g] reads closed in [g']. *)
Definition never_reopens (g g' : Game) : Prop :=
  open_tiles g' `sublist_of` open_tiles g
  ∧ (∀ t, Dict.get_or_false (tiles g) t = false →
          Dict.get_or_false (tiles g') t = false)
  ∧ tiles_max g' = tiles_max g
  ∧ single_die_rule g' = single_die_rule g
  ∧ (Dict.wf (tiles g) → Dict.wf (tiles g'))
  ∧ (board g → board g').

(** * Properties *)

(** ** The combination enumerator *)

Lemma elem_of_combinations (xs : list Z) :
  ∀ k c, c ∈ Py.combinations xs k ↔ c `sublist_of` xs ∧ length c = k.
Proof.
  induction xs as [|x xs IH]; intros [|k] c; simpl.
  - rewrite list_elem_of_singleton, sublist_nil_r.
    split; [intros ->; done | tauto].
  - rewrite elem_of_nil, sublist_nil_r. split; [done | intros [-> ?]; done].
  - rewrite list_elem_of_singleton. split.
    + intros ->. split; [apply sublist_nil_l | done].
    + intros [_ Hlen]. by apply length_zero_iff_nil.
  - rewrite elem_of_app, list_elem_of_fmap, sublist_cons_r, IH.
    split.
    + intros [(c' & -> & Hc') | [Hs Hl]].
      * apply IH in Hc' as [Hs Hl]. split; [right; eauto | simpl; lia].
      * tauto.
    + intros [[Hs | (c' & -> & Hs)] Hl].
      * right. done.
      * left. exists c'. split; [done |]. apply IH. simpl in Hl. split; [done | lia].
Qed.

Lemma sublist_strictly_sorted (l : list Z) :
  StronglySorted Z.lt l →
  ∀ c, c `sublist_of` l ↔ StronglySorted Z.lt c ∧ c ⊆ l.
Proof.
  intros Hl c. split.
  - intros Hs. split; [| by apply sublist_subseteq].
    induction Hs as [| x c l Hs IH | x c l Hs IH].
    + constructor.
    + apply StronglySorted_inv in Hl as [Hl Hx]. constructor; [auto |].
      rewrite Forall_forall in Hx |- *. intros y Hy. apply Hx.
      eapply elem_of_sublist; eauto.
    + apply StronglySorted_inv in Hl as [Hl _]. auto.
  - revert c. induction Hl as [| x l Hl IH Hx]; intros c [Hc Hsub].
    + destruct c as [|y c]; [constructor |].
      exfalso. eapply not_elem_of_nil, (Hsub y). left.
    + destruct c as [|y c]; [apply sublist_nil_l |].
      apply StronglySorted_inv in Hc as [Hc Hy].
      rewrite Forall_forall in Hx, Hy.
      assert (Hyin : y ∈ x :: l) by (apply Hsub; left).
      apply elem_of_cons in Hyin as [-> | Hyin].
      * apply sublist_skip, IH. split; [done |].
        intros z Hz. specialize (Hy z Hz).
        assert (Hz' : z ∈ x :: l) by (apply Hsub; by right).
        apply elem_of_cons in Hz' as [-> | Hz']; [lia | done].
      * apply sublist_cons, IH. split; [by constructor; [| apply Forall_forall] |].
        intros z Hz. specialize (Hx y Hyin).
        assert (Hz' : z ∈ x :: l) by (by apply Hsub).
        apply elem_of_cons in Hz as [-> | Hz]; [done |].
        specialize (Hy z Hz).
        apply elem_of_cons in Hz' as [-> | Hz']; [lia | done].
Qed.

Lemma sorted_Permutation (xs : list Z) : Py.sorted xs ≡ₚ xs.
Proof. apply merge_sort_Permutation. Qed.

Lemma sorted_ascending (xs : list Z) : StronglySorted Z.le (Py.sorted xs).
Proof. apply StronglySorted_merge_sort; apply _. Qed.

(** A list without repetition that ascends for [le] ascends strictly. *)
Section Strict.
Context {A : Type} (le lt : relation A).
Hypothesis lt_intro : ∀ x y, le x y → x ≠ y → lt x y.

Lemma StronglySorted_strict (l : list A) :
  StronglySorted le l → NoDup l → StronglySorted lt l.
Proof.
  induction 1 as [| x l Hl IH Hx]; intros Hnd; [constructor |].
  apply NoDup_cons in Hnd as [Hnotin Hnd].
  constructor; [auto |].
  rewrite Forall_forall in Hx |- *. intros y Hy.
  apply lt_intro; [auto |]. intros ->. done.
Qed.
End Strict.

Lemma tuple_ltb_irrefl (a : list Z) : Py.tuple_ltb a a = false.
Proof.
  induction a as [|x a IH]; simpl; [done |].
  rewrite Z.ltb_irrefl, Z.eqb_refl. done.
Qed.

Lemma tuple_ltb_trans (a b c : list Z) :
  Py.tuple_ltb a b = true → Py.tuple_ltb b c = true → Py.tuple_ltb a c = true.
Proof.
  revert b c. induction a as [|x a IH]; intros [|y b] [|z c]; simpl; try done.
  destruct (Z.ltb_spec x y), (Z.eqb_spec x y), (Z.ltb_spec y z), (Z.eqb_spec y z),
    (Z.ltb_spec x z), (Z.eqb_spec x z); try done; try lia.
  apply IH.
Qed.

Lemma tuple_ltb_total (a b : list Z) :
  a ≠ b → Py.tuple_ltb a b = true ∨ Py.tuple_ltb b a = true.
Proof.
  revert b. induction a as [|x a IH]; intros [|y b] Hne; simpl; auto; try done.
  destruct (Z.ltb_spec x y), (Z.eqb_spec x y), (Z.ltb_spec y x), (Z.eqb_spec y x);
    auto; try lia.
  apply IH. congruence.
Qed.

#[global] Instance tuple_le_trans : Transitive Py.tuple_le.
Proof.
  intros a b c Hab Hbc. unfold Py.tuple_le in *.
  destruct (Py.tuple_ltb c a) eqn:Hca; [| done].
  destruct (decide (a = b)) as [-> | Hne]; [congruence |].
  destruct (tuple_ltb_total a b Hne) as [H | H]; [| congruence].
  rewrite (tuple_ltb_trans c a b Hca H) in Hbc. done.
Qed.

#[global] Instance tuple_le_total : Total Py.tuple_le.
Proof.
  intros a b. unfold Py.tuple_le.
  destruct (Py.tuple_ltb b a) eqn:Hba; [| by left].
  right. destruct (Py.tuple_ltb a b) eqn:Hab; [| done].
  pose proof (tuple_ltb_trans a b a Hab Hba) as H.
  rewrite tuple_ltb_irrefl in H. done.
Qed.

Lemma tuple_lt_intro (a b : list Z) : Py.tuple_le a b → a ≠ b → Py.tuple_lt a b.
Proof.
  unfold Py.tuple_le, Py.tuple_lt. intros Hle Hne.
  destruct (tuple_ltb_total a b Hne); congruence.
Qed.

Lemma elem_of_sorted_set (out : list (list Z)) (c : list Z) :
  c ∈ Py.sorted_set out ↔ c ∈ out.
Proof.
  unfold Py.sorted_set. rewrite merge_sort_Permutation. apply elem_of_remove_dups.
Qed.

Lemma NoDup_sorted_set (out : list (list Z)) : NoDup (Py.sorted_set out).
Proof.
  unfold Py.sorted_set. rewrite merge_sort_Permutation. apply NoDup_remove_dups.
Qed.

Lemma sorted_set_ascending (out : list (list Z)) :
  StronglySorted Py.tuple_lt (Py.sorted_set out).
Proof.
  apply (StronglySorted_strict Py.tuple_le Py.tuple_lt tuple_lt_intro).
  - apply StronglySorted_merge_sort; apply _.
  - apply NoDup_sorted_set.
Qed.

(** Membership in the result, for any input: the subsequences of the sorted
    input that are not empty and have the right sum. *)
Lemma elem_of_combos_that_sum (nums : list Z) (target : Z) (c : list Z) :
  c ∈ combos_that_sum nums target ↔
  c ≠ [] ∧ c `sublist_of` Py.sorted nums ∧ Py.sum c = target.
Proof.
  unfold combos_that_sum. rewrite elem_of_sorted_set, list_elem_of_In, in_flat_map.
  setoid_rewrite <- list_elem_of_In. setoid_rewrite list_elem_of_filter.
  setoid_rewrite elem_of_combinations. unfold Py.range.
  setoid_rewrite list_elem_of_In. setoid_rewrite in_seq. split.
  - intros (k & Hk & Hsum & Hsub & Hlen). split; [| done].
    intros ->. simpl in Hlen. lia.
  - intros (Hne & Hsub & Hsum). exists (length c). split; [| done].
    apply sublist_length in Hsub. destruct c; [done |]. simpl in *. lia.
Qed.

Lemma sorted_strictly_ascending (nums : list Z) :
  NoDup nums → StronglySorted Z.lt (Py.sorted nums).
Proof.
  intros Hnd. apply (StronglySorted_strict Z.le Z.lt).
  - intros x y ? ?. lia.
  - apply sorted_ascending.
  - by rewrite sorted_Permutation.
Qed.

Lemma combos_that_sum_enumerates (nums : list Z) (target : Z) :
  NoDup nums → enumerates nums target (combos_that_sum nums target).
Proof.
  intros Hnd. split; [| split].
  - intros c. rewrite elem_of_combos_that_sum. unfold subset_summing.
    rewrite (sublist_strictly_sorted _ (sorted_strictly_ascending nums Hnd)).
    assert (c ⊆ Py.sorted nums ↔ c ⊆ nums) as ->; [| tauto].
    split; intros H x Hx; specialize (H x Hx).
    + by rewrite sorted_Permutation in H.
    + by rewrite sorted_Permutation.
  - apply NoDup_sorted_set.
  - apply sorted_set_ascending.
Qed.

Lemma open_tiles_NoDup (g : Game) : Dict.wf (tiles g) → NoDup (open_tiles g).
Proof.
  unfold Dict.wf, Dict.keys, open_tiles. intros H.
  eapply sublist_NoDup; [exact H | apply fmap_sublist, sublist_filter].
Qed.

(** C1. For distinct integers [nums] (positive or not) and any [target],
    [combos_that_sum] returns exactly the non-empty subsets of [nums] that
    sum to [target], each as an ascending tuple, none twice, the list in
    lexicographic order; [available_moves] is that enumeration over the open
    tiles of the game. *)
Theorem combos_that_sum_exact :
  (∀ nums target, NoDup nums → enumerates nums target (combos_that_sum nums target))
  ∧ (∀ g target, Dict.wf (tiles g) →
       available_moves g target = combos_that_sum (open_tiles g) target
       ∧ enumerates (open_tiles g) target (available_moves g target)).
Proof.
  split.
  - apply combos_that_sum_enumerates.
  - intros g target Hwf. split; [done |].
    apply combos_that_sum_enumerates, open_tiles_NoDup, Hwf.
Qed.

Lemma combos_that_sum_exact_witness :
  enumerates [3; 1; 5; 2; 4] 5 (combos_that_sum [3; 1; 5; 2; 4] 5)
  ∧ enumerates (open_tiles game9) 9 (available_moves game9 9).
Proof.
  split.
  - apply (proj1 combos_that_sum_exact).
    apply (bool_decide_unpack _). vm_compute. exact I.
  - apply (proj2 combos_that_sum_exact).
    unfold Dict.wf. apply (bool_decide_unpack _). vm_compute. exact I.
Defined.

Example combos_basic_1 :
  combos_that_sum [1; 2; 3; 4; 5] 5 = [[1; 4]; [2; 3]; [5]].
Proof. vm_compute. reflexivity. Qed.

Example combos_basic_2 : combos_that_sum [2; 4; 6] 5 = [].
Proof. vm_compute. reflexivity. Qed.

Example combos_unsorted_input :
  combos_that_sum [3; 1; 5; 2; 4] 5 = [[1; 4]; [2; 3]; [5]].
Proof. vm_compute. reflexivity. Qed.

(** ** The tiles dict *)

Lemma get_set_eq (d : Dict.t) (k : Z) (v : bool) :
  Dict.get (Dict.set d k v) k = Some v.
Proof.
  induction d as [|[k' v'] d IH]; simpl.
  - by rewrite Z.eqb_refl.
  - destruct (Z.eqb_spec k' k) as [-> | Hne]; simpl.
    + by rewrite Z.eqb_refl.
    + destruct (Z.eqb_spec k' k); [done | apply IH].
Qed.

Lemma get_set_ne (d : Dict.t) (k k' : Z) (v : bool) :
  k ≠ k' → Dict.get (Dict.set d k v) k' = Dict.get d k'.
Proof.
  intros Hne. induction d as [|[k0 v0] d IH]; simpl.
  - destruct (Z.eqb_spec k k'); done.
  - destruct (Z.eqb_spec k0 k) as [-> | ?]; simpl.
    + destruct (Z.eqb_spec k k'); done.
    + by rewrite IH.
Qed.

Lemma get_None (d : Dict.t) (k : Z) : Dict.get d k = None ↔ k ∉ Dict.keys d.
Proof.
  unfold Dict.keys. induction d as [|[k' v] d IH]; simpl.
  - split; [intros _; apply not_elem_of_nil | done].
  - rewrite not_elem_of_cons. destruct (Z.eqb_spec k' k) as [-> | Hne].
    + split; [done | intros [? _]; done].
    + rewrite IH. split; [intros ?; split; [congruence | done] | tauto].
Qed.

Lemma keys_set_present (d : Dict.t) (k : Z) (v : bool) :
  k ∈ Dict.keys d → Dict.keys (Dict.set d k v) = Dict.keys d.
Proof.
  unfold Dict.keys. induction d as [|[k' v'] d IH]; simpl; intros Hin.
  - by apply elem_of_nil in Hin.
  - destruct (Z.eqb_spec k' k) as [-> | Hne]; simpl; [done |].
    f_equal. apply IH. apply elem_of_cons in Hin as [-> | ?]; done.
Qed.

Lemma get_of_item (d : Dict.t) (k : Z) (v : bool) :
  Dict.wf d → (k, v) ∈ d → Dict.get d k = Some v.
Proof.
  unfold Dict.wf, Dict.keys. induction d as [|[k' v'] d IH]; simpl; intros Hwf Hin.
  - by apply elem_of_nil in Hin.
  - apply NoDup_cons in Hwf as [Hk' Hwf].
    apply elem_of_cons in Hin as [[= -> ->] | Hin].
    + by rewrite Z.eqb_refl.
    + destruct (Z.eqb_spec k' k) as [-> | Hne]; [| by apply IH].
      exfalso. apply Hk'. apply list_elem_of_fmap. by exists (k, v).
Qed.

Lemma elem_of_open_tiles (g : Game) (t : Z) :
  t ∈ open_tiles g ↔ (t, true) ∈ tiles g.
Proof.
  unfold open_tiles. rewrite list_elem_of_fmap. split.
  - intros ([k v] & -> & H). apply list_elem_of_filter in H as [Hv H].
    simpl in *. by subst.
  - intros H. exists (t, true). split; [done |]. by apply list_elem_of_filter.
Qed.

Lemma open_tiles_are_keys (g : Game) : open_tiles g ⊆ Dict.keys (tiles g).
Proof.
  intros t Ht. apply elem_of_open_tiles in Ht.
  unfold Dict.keys. apply list_elem_of_fmap. by exists (t, true).
Qed.

Lemma closed_not_open (g : Game) (t : Z) :
  Dict.wf (tiles g) → Dict.get (tiles g) t = Some false → t ∉ open_tiles g.
Proof.
  intros Hwf Hget Hin. apply elem_of_open_tiles in Hin.
  rewrite (get_of_item _ _ _ Hwf Hin) in Hget. done.
Qed.

Lemma close_tiles_keeps_closed (cs : list Z) :
  ∀ d t, Dict.get d t = Some false → Dict.get (close_tiles d cs) t = Some false.
Proof.
  unfold close_tiles. induction cs as [|c cs IH]; intros d t Hd; simpl; [done |].
  apply IH. destruct (decide (c = t)) as [-> | Hne].
  - apply get_set_eq.
  - by rewrite get_set_ne.
Qed.

Lemma close_tiles_closes (cs : list Z) :
  ∀ d t, t ∈ cs → Dict.get (close_tiles d cs) t = Some false.
Proof.
  induction cs as [|c cs IH]; intros d t Hin.
  - by apply elem_of_nil in Hin.
  - apply elem_of_cons in Hin as [-> | Hin].
    + apply (close_tiles_keeps_closed cs), get_set_eq.
    + apply (IH (Dict.set d c false)), Hin.
Qed.

Lemma close_tiles_keys (cs : list Z) :
  ∀ d, cs ⊆ Dict.keys d → Dict.keys (close_tiles d cs) = Dict.keys d.
Proof.
  induction cs as [|c cs IH]; intros d Hsub; [done |].
  change (close_tiles d (c :: cs)) with (close_tiles (Dict.set d c false) cs).
  assert (Hc : c ∈ Dict.keys d) by (apply Hsub; left).
  rewrite IH; rewrite keys_set_present; try done.
  intros x Hx. apply Hsub. by right.
Qed.

Lemma is_empty_true {A} (xs : list A) : is_empty xs = true ↔ xs = [].
Proof. destruct xs; simpl; split; done. Qed.

(** ** The engine *)

Example new_game_default : new_game 9 true = Some game9.
Proof. reflexivity. Qed.

Example new_game_refused : new_game 0 true = None.
Proof. reflexivity. Qed.

(** The scripted path of the tests: 9 closes 4 and 5, 8 closes 8, 7 closes 7;
    tile 9 is still open then. *)
Example scripted_path :
  let g1 := (move (roll game9 (Some 9) (mkDice 1 1)).2 [4; 5]).2 in
  let g2 := (move (roll g1 (Some 8) (mkDice 1 1)).2 [8]).2 in
  let g3 := (move (roll g2 (Some 7) (mkDice 1 1)).2 [7]).2 in
  open_tiles g3 = [1; 2; 3; 6; 9] ∧ score g3 = 21
  ∧ can_use_single_die g3 = false.
Proof. vm_compute. auto. Qed.

(** A successful move had a pending roll and a listed combination. *)
Lemma move_success_inv (g : Game) (chosen : list Z) (g' : Game) :
  move g chosen = (true, g') →
  over g = false ∧
  ∃ r, last_roll g = Some r ∧ Py.sorted chosen ∈ available_moves g r ∧
       tiles g' = close_tiles (tiles g) (Py.sorted chosen) ∧
       last_roll g' = None ∧
       over g' = is_empty (open_tiles g') ∧
       tiles_max g' = tiles_max g ∧ single_die_rule g' = single_die_rule g.
Proof.
  unfold move. destruct (over g) eqn:Hover; [done |].
  destruct (last_roll g) as [r|] eqn:Hroll; [| done].
  case_bool_decide as Hin; simpl; [| done].
  match goal with |- context [is_empty ?o] => destruct (is_empty o) eqn:He end;
    intros [= <-]; simpl; (split; [done |]); exists r; simpl in *; rewrite ?He;
    repeat split; done.
Qed.

(** C2. When [move(chosen)] returns success, which needs a pending roll, every
    tile of [chosen] is closed in the dict (and, the keys of a dict being
    distinct, is no open tile), [last_roll] is [None], and [over] is true
    exactly when no tile remains open. *)
Theorem move_success (g : Game) (chosen : list Z) (g' : Game) :
  move g chosen = (true, g') →
  is_Some (last_roll g)
  ∧ (∀ t, t ∈ chosen → Dict.get (tiles g') t = Some false)
  ∧ (Dict.wf (tiles g') → ∀ t, t ∈ chosen → t ∉ open_tiles g')
  ∧ last_roll g' = None
  ∧ (over g' = true ↔ open_tiles g' = []).
Proof.
  intros (Hover & r & Hroll & Hin & Htiles & Hlast & Hov & _)%move_success_inv.
  assert (Hclosed : ∀ t, t ∈ chosen → Dict.get (tiles g') t = Some false).
  { intros t Ht. rewrite Htiles. apply close_tiles_closes.
    by rewrite sorted_Permutation. }
  repeat split.
  - rewrite Hroll. by eexists.
  - exact Hclosed.
  - intros Hwf t Ht. apply closed_not_open; auto.
  - exact Hlast.
  - rewrite Hov. apply is_empty_true.
  - rewrite Hov. apply is_empty_true.
Qed.

Lemma move_success_witness :
  move (roll game9 (Some 9) (mkDice 1 1)).2 [5; 4]
  = (true, (move (roll game9 (Some 9) (mkDice 1 1)).2 [5; 4]).2)
  ∧ open_tiles (move (roll game9 (Some 9) (mkDice 1 1)).2 [5; 4]).2
    = [1; 2; 3; 6; 7; 8; 9]
  ∧ last_roll (move (roll game9 (Some 9) (mkDice 1 1)).2 [5; 4]).2 = None.
Proof.
  assert (H : move (roll game9 (Some 9) (mkDice 1 1)).2 [5; 4]
              = (true, (move (roll game9 (Some 9) (mkDice 1 1)).2 [5; 4]).2))
    by (vm_compute; reflexivity).
  split; [exact H |]. split; [vm_compute; reflexivity |].
  exact (proj1 (proj2 (proj2 (proj2 (move_success _ _ _ H))))).
Defined.

Lemma move_failure_frame (g : Game) (chosen : list Z) :
  (move g chosen).1 = false → (move g chosen).2 = g.
Proof.
  unfold move. destruct (over g); [done |].
  destruct (last_roll g); [| done].
  case_bool_decide; simpl; [| done].
  match goal with |- context [is_empty ?o] => destruct (is_empty o) end; done.
Qed.

(** C3. [move] is a total function: it raises nothing. It returns failure
    when the game is over, when no roll is pending, and when the sorted
    tuple of [chosen] is not among [available_moves(last_roll)]; and whenever
    it returns failure the game (tiles, [over], [last_roll]) is the one it was
    given. *)
Theorem move_failure :
  (∀ g chosen,
     over g = true ∨ last_roll g = None
     ∨ (∃ r, last_roll g = Some r ∧ Py.sorted chosen ∉ available_moves g r) →
     move g chosen = (false, g))
  ∧ (∀ g chosen, (move g chosen).1 = false →
       (move g chosen).2 = g
       ∧ tiles (move g chosen).2 = tiles g
       ∧ over (move g chosen).2 = over g
       ∧ last_roll (move g chosen).2 = last_roll g).
Proof.
  split.
  - intros g chosen H. unfold move.
    destruct (over g); [done |].
    destruct H as [H | [H | (r & Hr & Hnot)]]; [done | by rewrite H |].
    rewrite Hr. case_bool_decide; done.
  - intros g chosen H. rewrite (move_failure_frame g chosen H). done.
Qed.

Lemma move_failure_witness :
  move game9 [1] = (false, game9)
  ∧ move (roll game9 (Some 9) (mkDice 1 1)).2 [9; 1]
    = (false, (roll game9 (Some 9) (mkDice 1 1)).2)
  ∧ tiles (move game9 [1]).2 = tiles game9.
Proof.
  split; [| split].
  - apply (proj1 move_failure). right. left. reflexivity.
  - apply (proj1 move_failure). right. right. exists 9. split; [reflexivity |].
    vm_compute. intros H. repeat (apply elem_of_cons in H as [H | H]; [discriminate H |]).
    by apply elem_of_nil in H.
  - apply (proj2 move_failure). reflexivity.
Defined.

Lemma roll_over (g : Game) (forced : option Z) (d : Dice) :
  over g = true → roll g forced d = (default 0 (last_roll g), g).
Proof. unfold roll. by intros ->. Qed.

Lemma move_over (g : Game) (chosen : list Z) :
  over g = true → move g chosen = (false, g).
Proof. unfold move. by intros ->. Qed.

Lemma call_over (g : Game) (c : Call) :
  over g = true → call g c = (stable_reply g c, g).
Proof.
  intros H. destruct c as [forced d | chosen]; simpl.
  - by rewrite roll_over.
  - by rewrite move_over.
Qed.

Lemma calls_over (cs : list Call) (g : Game) :
  over g = true → calls g cs = (map (stable_reply g) cs, g).
Proof.
  intros H. induction cs as [|c cs IH]; simpl; [done |].
  by rewrite call_over, IH.
Qed.

(** The game a roll leaves behind, when the game was not over. *)
Lemma roll_not_over (g : Game) (forced : option Z) (d : Dice) :
  over g = false →
  let r := match forced with
           | Some v => v
           | None => if can_use_single_die g then die1 d else die1 d + die2 d
           end in
  (roll g forced d).1 = r
  ∧ last_roll (roll g forced d).2 = Some r
  ∧ tiles (roll g forced d).2 = tiles g
  ∧ tiles_max (roll g forced d).2 = tiles_max g
  ∧ single_die_rule (roll g forced d).2 = single_die_rule g
  ∧ over (roll g forced d).2 = is_empty (available_moves g r).
Proof.
  intros Hover. unfold roll. rewrite Hover. cbv zeta.
  set (r := match forced with Some v => v | None => _ end).
  unfold available_moves, open_tiles. simpl.
  match goal with |- context [is_empty ?o] => destruct (is_empty o) end;
    simpl; repeat split; done.
Qed.

Lemma roll_keeps_tiles (g : Game) (forced : option Z) (d : Dice) :
  tiles (roll g forced d).2 = tiles g.
Proof.
  destruct (over g) eqn:Hover.
  - by rewrite roll_over.
  - by apply roll_not_over.
Qed.

(** X22. An unforced roll on a game that is not over is the first die when
    the single-die rule applies and the sum of two dice otherwise: with dice
    showing 1 to 6 it lies in 1..6, respectively 2..12. *)
Lemma roll_range (g : Game) (d : Dice) :
  over g = false → dice_ok d →
  if can_use_single_die g then 1 <= (roll g None d).1 <= 6
  else 2 <= (roll g None d).1 <= 12.
Proof.
  intros Hover [H1 H2].
  destruct (roll_not_over g None d Hover) as (-> & _).
  destruct (can_use_single_die g); lia.
Qed.

(** C4. A roll whose value has no legal move leaves [over] true; and once
    [over] is true every later sequence of [roll] and [move] calls answers
    the last recorded roll (0 if none), respectively failure, and leaves the
    game, hence [over], [last_roll] and the tiles, as it is. *)
Theorem over_is_absorbing :
  (∀ g forced d,
     available_moves (roll g forced d).2 (roll g forced d).1 = [] →
     over (roll g forced d).2 = true)
  ∧ (∀ g forced d, over g = true → roll g forced d = (default 0 (last_roll g), g))
  ∧ (∀ g chosen, over g = true → move g chosen = (false, g))
  ∧ (∀ g cs, over g = true →
       calls g cs = (map (stable_reply g) cs, g) ∧ over (calls g cs).2 = true).
Proof.
  split; [| split; [| split]].
  - intros g forced d. destruct (over g) eqn:Hover.
    + rewrite roll_over by done. done.
    + destruct (roll_not_over g forced d Hover) as (Hr & _ & Ht & _ & _ & Ho).
      rewrite Ho, Hr. unfold available_moves, open_tiles. rewrite Ht.
      intros ->. done.
  - apply roll_over.
  - apply move_over.
  - intros g cs H. rewrite calls_over by done. done.
Qed.

Lemma over_is_absorbing_witness :
  over (roll game_1_9 (Some 3) (mkDice 1 1)).2 = true
  ∧ calls (roll game_1_9 (Some 3) (mkDice 1 1)).2
      [CallRoll None (mkDice 4 5); CallMove [1]; CallRoll (Some 9) (mkDice 1 1);
       CallMove [9]]
    = ([RollReply 3; MoveReply false; RollReply 3; MoveReply false],
       (roll game_1_9 (Some 3) (mkDice 1 1)).2)
  ∧ score (roll game_1_9 (Some 3) (mkDice 1 1)).2 = 10.
Proof.
  assert (H : over (roll game_1_9 (Some 3) (mkDice 1 1)).2 = true).
  { apply (proj1 over_is_absorbing). vm_compute. reflexivity. }
  split; [exact H |]. split; [| vm_compute; reflexivity].
  exact (proj1 (proj2 (proj2 (proj2 over_is_absorbing)) _ _ H)).
Defined.

Lemma sum_positive (c : list Z) :
  c ≠ [] → Forall (λ t, 0 < t) c → 0 < Py.sum c.
Proof.
  intros Hne Hpos. destruct c as [|x c]; [done |].
  apply Forall_cons in Hpos as [Hx Hc]. simpl.
  assert (0 <= Py.sum c); [| lia].
  clear -Hc. induction Hc; simpl; [done | lia].
Qed.

Lemma nil_iff_no_elem {A} (xs : list A) : xs = [] ↔ ∀ x, x ∉ xs.
Proof.
  split.
  - intros -> x. apply not_elem_of_nil.
  - destruct xs as [|x xs]; [done |]. intros H. destruct (H x). left.
Qed.

(** C10. A forced roll on a game that is not over is stored as given, whatever
    its value: the call returns [v], [last_roll] is [v], and [over] becomes
    true exactly when no non-empty subset of the open tiles sums to [v]. With
    positive tiles, every [v <= 0] ends the game. *)
Theorem roll_forced_unvalidated (g : Game) (v : Z) (d : Dice) :
  over g = false → Dict.wf (tiles g) →
  (roll g (Some v) d).1 = v
  ∧ last_roll (roll g (Some v) d).2 = Some v
  ∧ tiles (roll g (Some v) d).2 = tiles g
  ∧ (over (roll g (Some v) d).2 = true ↔
     ¬ ∃ c, subset_summing (open_tiles g) v c)
  ∧ (v <= 0 → Forall (λ t, 0 < t) (open_tiles g) →
     over (roll g (Some v) d).2 = true).
Proof.
  intros Hover Hwf.
  destruct (roll_not_over g (Some v) d Hover) as (Hr & Hl & Ht & _ & _ & Ho).
  simpl in *.
  assert (Hiff : over (roll g (Some v) d).2 = true ↔
                 ¬ ∃ c, subset_summing (open_tiles g) v c).
  { rewrite Ho, is_empty_true, nil_iff_no_elem.
    destruct (combos_that_sum_enumerates (open_tiles g) v
                (open_tiles_NoDup g Hwf)) as (Hmem & _).
    unfold available_moves. split.
    - intros H (c & Hc). apply (H c), Hmem, Hc.
    - intros H c Hc. apply H. exists c. by apply Hmem. }
  repeat split; try done; try apply Hiff.
  intros Hv Hpos. apply Hiff. intros (c & Hne & _ & Hsub & Hsum).
  assert (0 < Py.sum c); [| lia].
  apply sum_positive; [done |].
  rewrite Forall_forall in Hpos |- *. auto.
Qed.

Lemma roll_forced_unvalidated_witness :
  last_roll (roll game9 (Some (-4)) (mkDice 1 1)).2 = Some (-4)
  ∧ over (roll game9 (Some (-4)) (mkDice 1 1)).2 = true
  ∧ last_roll (roll game9 (Some 13) (mkDice 1 1)).2 = Some 13.
Proof.
  assert (Hwf : Dict.wf (tiles game9)).
  { unfold Dict.wf. apply (bool_decide_unpack _). vm_compute. exact I. }
  destruct (roll_forced_unvalidated game9 (-4) (mkDice 1 1) eq_refl Hwf)
    as (_ & Hl & _ & _ & Hneg).
  destruct (roll_forced_unvalidated game9 13 (mkDice 1 1) eq_refl Hwf)
    as (_ & Hl13 & _).
  split; [exact Hl |]. split; [| exact Hl13].
  apply Hneg; [lia |].
  apply (bool_decide_unpack _). vm_compute. exact I.
Defined.

(** ** The single-die rule *)

Lemma elem_of_tile_ids (n t : Z) : t ∈ tile_ids n ↔ 1 <= t <= n.
Proof.
  unfold tile_ids. rewrite list_elem_of_fmap. split.
  - intros (k & -> & Hk). apply list_elem_of_In, in_seq in Hk. lia.
  - intros H. exists (Z.to_nat t). split; [lia |].
    apply list_elem_of_In, in_seq. lia.
Qed.

Lemma board_get_None (g : Game) (t : Z) :
  board g → ¬ (1 <= t <= tiles_max g) → Dict.get (tiles g) t = None.
Proof.
  unfold board. intros Hb Ht. apply get_None. rewrite Hb, elem_of_tile_ids. done.
Qed.

Lemma new_game_board (n : Z) (single : bool) (g : Game) :
  new_game n single = Some g → board g ∧ over g = false ∧ last_roll g = None.
Proof.
  unfold new_game. destruct (n <? 1); [done |]. intros [= <-].
  unfold board, Dict.keys. simpl. split; [| done].
  rewrite <- list_fmap_compose. apply list_fmap_id.
Qed.

Lemma roll_board (g : Game) (forced : option Z) (d : Dice) :
  board g → board (roll g forced d).2.
Proof.
  unfold board. destruct (over g) eqn:Hover.
  - by rewrite roll_over.
  - destruct (roll_not_over g forced d Hover) as (_ & _ & -> & -> & _). done.
Qed.

Lemma move_board (g : Game) (chosen : list Z) :
  board g → board (move g chosen).2.
Proof.
  intros Hb. destruct (move g chosen) as [[|] g'] eqn:Hm; simpl.
  - apply move_success_inv in Hm
      as (_ & r & _ & Hin & Ht & _ & _ & Hmax & _).
    unfold board in *. rewrite Ht, Hmax, <- Hb. apply close_tiles_keys.
    apply elem_of_combos_that_sum in Hin as (_ & Hsub & _).
    intros t Ht'. apply open_tiles_are_keys.
    eapply elem_of_sublist in Hsub; [| exact Ht'].
    by rewrite sorted_Permutation in Hsub.
  - pose proof (move_failure_frame g chosen) as H. rewrite Hm in H.
    simpl in H. by rewrite H.
Qed.

Lemma can_use_single_die_iff (g : Game) :
  can_use_single_die g = true ↔
  single_die_rule g = true
  ∧ ∀ t, t ∈ [7; 8; 9] → t <= tiles_max g → Dict.get (tiles g) t ≠ Some true.
Proof.
  unfold can_use_single_die. destruct (single_die_rule g); simpl.
  2: { split; [done | intros [? _]; done]. }
  rewrite forallb_forall. setoid_rewrite <- list_elem_of_In.
  setoid_rewrite list_elem_of_filter. unfold Dict.get_or_false.
  split.
  - intros H. split; [done |]. intros t Ht Hle Hget.
    specialize (H t (conj Hle Ht)). rewrite Hget in H. done.
  - intros [_ H] t [Hle Ht]. specialize (H t Ht Hle).
    destruct (Dict.get (tiles g) t) as [[|]|]; done.
Qed.

(** C5, as the code has it. [can_use_single_die] is false when the rule is
    disabled; on every game it is true exactly when the rule is enabled and
    each of the tiles 7, 8, 9 up to [tiles_max] is closed; on a board of at
    most 9 tiles that is: every tile above 6 on the board is closed. *)
Theorem can_use_single_die_spec (g : Game) :
  (single_die_rule g = false → can_use_single_die g = false)
  ∧ (can_use_single_die g = true ↔
     single_die_rule g = true
     ∧ ∀ t, t ∈ [7; 8; 9] → t <= tiles_max g → Dict.get (tiles g) t ≠ Some true)
  ∧ (board g → tiles_max g <= 9 →
     (can_use_single_die g = true ↔ single_die_rule g = true ∧ high_tiles_closed g)).
Proof.
  split; [| split].
  - unfold can_use_single_die. by intros ->.
  - apply can_use_single_die_iff.
  - intros Hb Hmax. rewrite can_use_single_die_iff. unfold high_tiles_closed.
    split; intros [Hrule H]; (split; [done |]).
    + intros t Ht. destruct (decide (t <= tiles_max g)) as [Hle | Hgt].
      * apply H; [| done]. repeat rewrite elem_of_cons. lia.
      * rewrite board_get_None; [done | done | lia].
    + intros t Ht _. apply H. repeat rewrite elem_of_cons in Ht.
      rewrite elem_of_nil in Ht. lia.
Qed.

Lemma can_use_single_die_spec_witness :
  board game9_low ∧ tiles_max game9_low <= 9
  ∧ single_die_rule game9_low = true ∧ high_tiles_closed game9_low.
Proof.
  assert (Hb : board game9_low) by (vm_compute; reflexivity).
  assert (Hm : tiles_max game9_low <= 9) by (vm_compute; discriminate).
  split; [exact Hb |]. split; [exact Hm |].
  apply (proj2 (proj2 (can_use_single_die_spec game9_low)) Hb Hm).
  vm_compute. reflexivity.
Defined.

(** C5 as stated fails on a board of 10 tiles: with 7, 8 and 9 closed and 10
    open the query answers true although a tile above 6 is open. *)
Lemma single_die_ignores_tile_10 :
  new_game 10 true = Some game10
  ∧ board game10_low ∧ 1 <= tiles_max game10_low
  ∧ 10 ∈ open_tiles game10_low
  ∧ ¬ (can_use_single_die game10_low = true ↔
       single_die_rule game10_low = true ∧ high_tiles_closed game10_low).
Proof.
  split; [reflexivity |]. split; [vm_compute; reflexivity |].
  split; [vm_compute; discriminate |].
  split; [vm_compute; repeat constructor |].
  intros [H _]. destruct H as [_ H]; [vm_compute; reflexivity |].
  apply (H 10); [lia |]. vm_compute. reflexivity.
Qed.

(** ** The policies *)

Lemma min_by_from_elem {A} (key : A → Z) (xs : list A) :
  ∀ best, Py.min_by_from key best xs = best ∨ Py.min_by_from key best xs ∈ xs.
Proof.
  induction xs as [|x xs IH]; intros best; simpl; [by left |].
  destruct (key x <? key best).
  - destruct (IH x) as [-> | H]; right; [left | by right].
  - destruct (IH best) as [-> | H]; [by left | right; by right].
Qed.

Lemma min_by_elem {A} (key : A → Z) (xs : list A) (m : A) :
  Py.min_by key xs = Some m → m ∈ xs.
Proof.
  destruct xs as [|x xs]; simpl; [done |]. intros [= <-].
  destruct (min_by_from_elem key xs x) as [-> | H]; [left | by right].
Qed.

(** When all keys are equal, [min] returns the first element. *)
Lemma min_by_from_ties {A} (key : A → Z) (k : Z) (xs : list A) (best : A) :
  key best = k → (∀ x, x ∈ xs → key x = k) → Py.min_by_from key best xs = best.
Proof.
  intros Hb. induction xs as [|x xs IH]; intros H; simpl; [done |].
  rewrite (H x), Hb, Z.ltb_irrefl by left.
  apply IH. intros y Hy. apply H. by right.
Qed.

Lemma min_by_ties {A} (key : A → Z) (k : Z) (xs : list A) :
  (∀ x, x ∈ xs → key x = k) → Py.min_by key xs = head xs.
Proof.
  destruct xs as [|x xs]; intros H; simpl; [done |]. f_equal.
  apply (min_by_from_ties key k).
  - apply H. left.
  - intros y Hy. apply H. by right.
Qed.

Lemma elem_of_pair_moves (opens : list Z) (roll_val : Z) (mv : list Z) :
  mv ∈ pair_moves opens roll_val →
  ∃ a b, mv = [a; b] ∧ a + b = roll_val ∧ [a; b] `sublist_of` opens.
Proof.
  induction opens as [|x opens IH]; simpl; intros H.
  - by apply elem_of_nil in H.
  - apply elem_of_app in H as [H | H].
    + apply list_elem_of_fmap in H as (b & -> & Hb).
      apply list_elem_of_filter in Hb as [Hsum Hb].
      exists x, b. split; [done |]. split; [done |].
      apply sublist_skip. by apply singleton_sublist_l.
    + destruct (IH H) as (a & b & -> & Hsum & Hsub).
      exists a, b. split; [done |]. split; [done |]. by apply sublist_cons.
Qed.

(** What [compute_legal_moves] lists: one open tile equal to the roll, or two
    open tiles that sum to it. *)
Lemma elem_of_compute_legal_moves (g : Game) (r : Z) (mv : list Z) :
  mv ∈ compute_legal_moves g r →
  (1 <= length mv <= 2)%nat ∧ Py.sum mv = r ∧ mv ⊆ open_tiles g.
Proof.
  unfold compute_legal_moves. intros H. apply elem_of_app in H as [H | H].
  - apply list_elem_of_fmap in H as (t & -> & Ht).
    apply list_elem_of_filter in Ht as [-> Ht]. simpl.
    split; [lia |]. split; [lia |].
    intros x Hx. apply list_elem_of_singleton in Hx as ->. done.
  - apply elem_of_pair_moves in H as (a & b & -> & Hsum & Hsub). simpl.
    split; [lia |]. split; [lia |]. by apply sublist_subseteq.
Qed.

Lemma short_from_legal (g : Game) (r : Z) (res : option (list Z)) :
  (∀ m, res = Some m → m ∈ compute_legal_moves g r) → short_move res.
Proof. intros H m Hm. by apply (elem_of_compute_legal_moves g r), H. Qed.

Lemma elem_of_multi_tile (moves : list (list Z)) (m : list Z) :
  m ∈ multi_tile moves → m ∈ moves.
Proof. unfold multi_tile. rewrite list_elem_of_filter. tauto. Qed.

Lemma elem_of_choice {A} (xs : list A) (n : nat) (x : A) :
  choice xs n = Some x → x ∈ xs.
Proof. unfold choice. apply list_elem_of_lookup_2. Qed.

Lemma random_move_short g d n : short_move (Policies.random_move g d n).1.
Proof.
  unfold Policies.random_move. destruct (roll g None d) as [r g1]. simpl.
  apply (short_from_legal g1 r). intros m.
  destruct (is_empty _); [done |]. apply elem_of_choice.
Qed.

Lemma greedy_move_short g d : short_move (Policies.greedy_move g d).1.
Proof.
  unfold Policies.greedy_move. destruct (roll g None d) as [r g1].
  apply (short_from_legal g1 r). intros m.
  destruct (is_empty _); simpl; [done |]. apply min_by_elem.
Qed.

Lemma human_move_short g d d' : short_move (Policies.human_move g d d').1.
Proof.
  unfold Policies.human_move. destruct (roll g None d) as [r g1].
  destruct (is_empty (compute_legal_moves g1 r)); [done |].
  destruct (negb _); [| apply greedy_move_short].
  apply (short_from_legal g1 r). intros m Hm. simpl in Hm.
  by apply min_by_elem, elem_of_multi_tile in Hm.
Qed.

Lemma pick_move_short table py_int g d m :
  (Policies.pick_move table py_int g d).1 = Returned (Some m) →
  (1 <= length m <= 2)%nat.
Proof.
  unfold Policies.pick_move. destruct (roll g None d) as [r g1].
  destruct (is_empty (compute_legal_moves g1 r)); [done |].
  assert (Hfb : Returned (Py.min_by (remaining_sum_after g1)
                            (compute_legal_moves g1 r)) = Returned (Some m) →
                (1 <= length m <= 2)%nat).
  { intros [= H]. apply min_by_elem in H.
    by apply (elem_of_compute_legal_moves g1 r). }
  destruct (table !! _) as [hit|]; [| exact Hfb].
  destruct (negb _); [| exact Hfb].
  destruct (Policies.parse_move py_int hit) as [want|]; [| done].
  case_bool_decide as Hin; [| exact Hfb].
  intros [= <-]. by apply (elem_of_compute_legal_moves g1 r).
Qed.

Lemma collect_step_short g d n : short_move (collect_step g d n).1.2.
Proof.
  unfold collect_step. destruct (roll g None d) as [r g1].
  destruct (is_empty (compute_legal_moves g1 r)); [done |].
  destruct (choice _ n) as [mv|] eqn:Hc; [| done].
  intros m [= <-]. apply elem_of_choice in Hc.
  by apply (elem_of_compute_legal_moves g1 r).
Qed.

(** C9. The legal-move enumeration of the policy module and of the
    run-collection script lists one- and two-tile moves only, so every move
    that [random_move], [greedy_move], [human_move], the table policy or the
    collection loop returns has at most two tiles; a combination of three or
    more tiles is never listed, although [available_moves] may contain one:
    on the full board, [(1, 2, 3)] is available for a roll of 6. *)
Theorem policy_moves_at_most_two_tiles :
  (∀ g r mv, mv ∈ compute_legal_moves g r → (1 <= length mv <= 2)%nat)
  ∧ (∀ g d n, short_move (Policies.random_move g d n).1)
  ∧ (∀ g d, short_move (Policies.greedy_move g d).1)
  ∧ (∀ g d d', short_move (Policies.human_move g d d').1)
  ∧ (∀ table py_int g d m,
       (Policies.pick_move table py_int g d).1 = Returned (Some m) →
       (1 <= length m <= 2)%nat)
  ∧ (∀ g d n, short_move (collect_step g d n).1.2)
  ∧ (∀ g r c, c ∈ available_moves g r → (3 <= length c)%nat →
       c ∉ compute_legal_moves g r)
  ∧ ([1; 2; 3] ∈ available_moves game9 6
     ∧ [1; 2; 3] ∉ compute_legal_moves game9 6).
Proof.
  assert (H3 : ∀ g r c, (3 <= length c)%nat → c ∉ compute_legal_moves g r).
  { intros g r c Hlen Hin. apply elem_of_compute_legal_moves in Hin. lia. }
  split_and!.
  - intros g r mv H. by apply elem_of_compute_legal_moves in H as [H _].
  - apply random_move_short.
  - apply greedy_move_short.
  - apply human_move_short.
  - apply pick_move_short.
  - apply collect_step_short.
  - intros g r c _ Hlen. by apply H3.
  - vm_compute. repeat constructor.
  - apply H3. simpl. lia.
Qed.

Lemma policy_moves_at_most_two_tiles_witness :
  (1 <= length [4; 5]%Z <= 2)%nat ∧ [1; 3; 5] ∉ compute_legal_moves game9 9.
Proof.
  split.
  - apply (proj1 policy_moves_at_most_two_tiles game9 9).
    vm_compute. repeat constructor.
  - apply (proj1 (proj2 (proj2 (proj2 (proj2 (proj2 (proj2
             policy_moves_at_most_two_tiles)))))) game9 9).
    + vm_compute. repeat constructor.
    + simpl. lia.
Defined.

(** The policies at work on the full board, dice 2 and 3. *)
Example tiles_to_key_example :
  tiles_to_key game9 = "123456789"%string
  ∧ tiles_to_key game9_low = "123456XXX"%string.
Proof. vm_compute. auto. Qed.

Example compute_legal_moves_example :
  compute_legal_moves game9 9 = [[9]; [1; 8]; [2; 7]; [3; 6]; [4; 5]]
  ∧ available_moves game9 9
    = [[1; 2; 6]; [1; 3; 5]; [1; 8]; [2; 3; 4]; [2; 7]; [3; 6]; [4; 5]; [9]].
Proof. vm_compute. auto. Qed.

Example pick_move_miss :
  (Policies.pick_move ∅ (λ _, None) game9 (mkDice 2 3)).1 = Returned (Some [5]).
Proof. vm_compute. reflexivity. Qed.

Example pick_move_hit :
  (Policies.pick_move {[ "123456789|5"%string := "1+4"%string ]}
     (λ s, if String.eqb s "1" then Some 1
           else if String.eqb s "4" then Some 4 else None)
     game9 (mkDice 2 3)).1
  = Returned (Some [1; 4]).
Proof. vm_compute. reflexivity. Qed.

Example pick_move_bad_entry :
  (Policies.pick_move {[ "123456789|5"%string := "1+x"%string ]}
     (λ s, if String.eqb s "1" then Some 1 else None)
     game9 (mkDice 2 3)).1
  = Raised.
Proof. vm_compute. reflexivity. Qed.

(** ** Min-remaining-sum *)

(** Every listed move sums to the roll, so all have the same key. *)
Lemma available_moves_sum (g : Game) (r : Z) (m : list Z) :
  m ∈ available_moves g r → Py.sum m = r.
Proof. unfold available_moves. rewrite elem_of_combos_that_sum. tauto. Qed.







(** ** What evaluating a policy does to the game *)

Lemma roll_effect (g : Game) (d : Dice) : policy_effect g (roll g None d).2.
Proof.
  unfold policy_effect. destruct (over g) eqn:Hover.
  - rewrite roll_over by done. simpl. split_and!; done.
  - destruct (roll_not_over g None d Hover) as (_ & Hl & Ht & Hm & Hs & Ho).
    split_and!; try done. intros _. eauto.
Qed.

Lemma policy_effect_trans (g g1 g2 : Game) :
  policy_effect g g1 → policy_effect g1 g2 → policy_effect g g2.
Proof.
  intros (Ht & Hm & Hs & Hov & Hro) (Ht' & Hm' & Hs' & Hov' & Hro').
  unfold policy_effect. split_and!; try congruence.
  - intros H. specialize (Hov H). subst g1. auto.
  - intros H. destruct (Hro H) as (r & Hl & Ho).
    destruct (over g1) eqn:Hover1.
    + rewrite (Hov' eq_refl). exists r. split; [done | congruence].
    + destruct (Hro' eq_refl) as (r' & Hl' & Ho'). exists r'. split; [done |].
      rewrite Ho'. unfold available_moves, open_tiles. by rewrite Ht.
Qed.

(** C7, as the code has it. Every built-in policy calls [roll] itself before
    it picks, and does nothing else to the game: the tiles map is the same
    before and after, a game that is over is left as it is, and otherwise
    [last_roll] is the roll the policy made and [over] is set when that roll
    has no legal move. *)
Theorem policies_only_roll :
  (∀ g d n, policy_effect g (Sim.policy_random g d n).2)
  ∧ (∀ g d, policy_effect g (Sim.policy_greedy_min_remaining g d).2)
  ∧ (∀ g d d', policy_effect g (Sim.policy_human_like g d d').2)
  ∧ (∀ g d n, policy_effect g (Policies.random_move g d n).2)
  ∧ (∀ g d, policy_effect g (Policies.greedy_move g d).2)
  ∧ (∀ g d d', policy_effect g (Policies.human_move g d d').2)
  ∧ (∀ table py_int g d, policy_effect g (Policies.pick_move table py_int g d).2).
Proof.
  assert (Hsim : ∀ g d, policy_effect g (Sim.policy_greedy_min_remaining g d).2).
  { intros g d. pose proof (roll_effect g d) as H.
    unfold Sim.policy_greedy_min_remaining.
    destruct (roll g None d) as [r g1]. by destruct (is_empty _). }
  assert (Hpol : ∀ g d, policy_effect g (Policies.greedy_move g d).2).
  { intros g d. pose proof (roll_effect g d) as H.
    unfold Policies.greedy_move.
    destruct (roll g None d) as [r g1]. by destruct (is_empty _). }
  split_and!; try done.
  - intros g d n. pose proof (roll_effect g d) as H.
    unfold Sim.policy_random. by destruct (roll g None d) as [r g1].
  - intros g d d'. pose proof (roll_effect g d) as H.
    unfold Sim.policy_human_like. destruct (roll g None d) as [r g1].
    destruct (is_empty (available_moves g1 r)); [done |].
    destruct (negb _); [done |].
    eapply policy_effect_trans; [exact H | apply Hsim].
  - intros g d n. pose proof (roll_effect g d) as H.
    unfold Policies.random_move. by destruct (roll g None d) as [r g1].
  - intros g d d'. pose proof (roll_effect g d) as H.
    unfold Policies.human_move. destruct (roll g None d) as [r g1].
    destruct (is_empty (compute_legal_moves g1 r)); [done |].
    destruct (negb _); [done |].
    eapply policy_effect_trans; [exact H | apply Hpol].
  - intros table py_int g d. pose proof (roll_effect g d) as H.
    unfold Policies.pick_move. destruct (roll g None d) as [r g1].
    destruct (is_empty (compute_legal_moves g1 r)); [done |].
    destruct (table !! _) as [hit|]; [| done].
    destruct (negb _); [| done].
    destruct (Policies.parse_move py_int hit) as [want|]; [| done].
    by case_bool_decide.
Qed.

Lemma policies_only_roll_witness :
  policy_effect game9 (Sim.policy_human_like game9 (mkDice 2 3) (mkDice 6 6)).2
  ∧ tiles (Sim.policy_human_like game9 (mkDice 2 3) (mkDice 6 6)).2 = tiles game9.
Proof.
  pose proof (proj1 (proj2 (proj2 policies_only_roll)) game9 (mkDice 2 3)
                (mkDice 6 6)) as H.
  split; [exact H | exact (proj1 H)].
Defined.

(** C7 as stated fails: on a fresh board the random policy, asked for a
    move, leaves a pending roll of 5 behind; on the board with only 1 and 9
    open and a roll of 3 it also ends the game. *)
Lemma policy_random_changes_state :
  ¬ engine_state_unchanged game9 (Sim.policy_random game9 (mkDice 2 3) 0).2
  ∧ last_roll game9 = None
  ∧ last_roll (Sim.policy_random game9 (mkDice 2 3) 0).2 = Some 5
  ∧ last_roll (Policies.random_move game9 (mkDice 2 3) 0).2 = Some 5
  ∧ over game_1_9 = false
  ∧ over (Sim.policy_random game_1_9 (mkDice 1 2) 0).2 = true.
Proof.
  split_and!; try (vm_compute; reflexivity).
  intros (_ & _ & H). vm_compute in H. discriminate H.
Qed.

(** ** The score summary *)

Module AnalyzeFacts.
Import Analyze.

#[global] Instance string_le_total : Total string_le.
Proof.
  intros a b. unfold string_le, String.leb.
  rewrite (String.compare_antisym a b).
  destruct (String.compare b a); simpl; auto.
Qed.

#[global] Instance mean_le_trans : Transitive mean_le.
Proof.
  intros a b c. unfold mean_le. rewrite !Qle_bool_iff. apply Qle_trans.
Qed.

#[global] Instance mean_le_total : Total mean_le.
Proof.
  intros a b. unfold mean_le. rewrite !Qle_bool_iff.
  destruct (Qlt_le_dec (mean_score a) (mean_score b)) as [H | H]; [| by right].
  left. by apply Qlt_le_weak.
Qed.





















End AnalyzeFacts.

(** * Further properties of the code *)

(** ** Tiles are closed for good *)

Lemma sum_app (xs ys : list Z) : Py.sum (xs ++ ys) = Py.sum xs + Py.sum ys.
Proof. induction xs as [|x xs IH]; simpl; [done | rewrite IH; lia]. Qed.

Lemma sum_Permutation (xs ys : list Z) : xs ≡ₚ ys → Py.sum xs = Py.sum ys.
Proof. induction 1; simpl; lia. Qed.

Lemma open_keys_set_sublist (d : Dict.t) (t : Z) :
  open_keys (Dict.set d t false) `sublist_of` open_keys d.
Proof.
  unfold open_keys. induction d as [|[k v] d IH]; [done |].
  cbn [Dict.set]. destruct (Z.eqb_spec k t) as [-> | Hne].
  - rewrite (filter_cons_False _ (t, false)) by done.
    destruct v.
    + rewrite (filter_cons_True _ (t, true)) by done. by apply sublist_cons.
    + by rewrite (filter_cons_False _ (t, false)) by done.
  - destruct v.
    + rewrite !(filter_cons_True _ (k, true)) by done. by apply sublist_skip.
    + by rewrite !(filter_cons_False _ (k, false)) by done.
Qed.

Lemma keys_set_absent (d : Dict.t) (k : Z) (v : bool) :
  k ∉ Dict.keys d → Dict.keys (Dict.set d k v) = Dict.keys d ++ [k].
Proof.
  unfold Dict.keys. induction d as [|[k' v'] d IH]; intros Hk; [done |].
  cbn [Dict.set map fst]. cbn [map fst] in Hk.
  apply not_elem_of_cons in Hk as [Hne Hk].
  destruct (Z.eqb_spec k' k) as [-> | _]; [done |].
  cbn [map fst]. by rewrite IH.
Qed.

Lemma wf_set (d : Dict.t) (k : Z) (v : bool) : Dict.wf d → Dict.wf (Dict.set d k v).
Proof.
  unfold Dict.wf. destruct (decide (k ∈ Dict.keys d)) as [Hin | Hin].
  - by rewrite keys_set_present.
  - rewrite keys_set_absent by done.
    intros Hnd. apply NoDup_app. split; [done |]. split.
    + intros x Hx Hx'. apply list_elem_of_singleton in Hx' as ->. done.
    + apply NoDup_singleton.
Qed.

Lemma wf_close_tiles (cs : list Z) : ∀ d, Dict.wf d → Dict.wf (close_tiles d cs).
Proof.
  induction cs as [|c cs IH]; intros d Hwf; [done |].
  apply (IH (Dict.set d c false)), wf_set, Hwf.
Qed.

Lemma open_keys_close_sublist (cs : list Z) :
  ∀ d, open_keys (close_tiles d cs) `sublist_of` open_keys d.
Proof.
  induction cs as [|c cs IH]; intros d; [done |].
  change (close_tiles d (c :: cs)) with (close_tiles (Dict.set d c false) cs).
  etrans; [apply IH | apply open_keys_set_sublist].
Qed.

Lemma get_or_false_set (d : Dict.t) (k t : Z) :
  Dict.get_or_false d t = false →
  Dict.get_or_false (Dict.set d k false) t = false.
Proof.
  unfold Dict.get_or_false. destruct (decide (k = t)) as [-> | Hne].
  - by rewrite get_set_eq.
  - by rewrite get_set_ne.
Qed.

Lemma get_or_false_close (cs : list Z) :
  ∀ d t, Dict.get_or_false d t = false →
         Dict.get_or_false (close_tiles d cs) t = false.
Proof.
  induction cs as [|c cs IH]; intros d t H; [done |].
  apply (IH (Dict.set d c false)), get_or_false_set, H.
Qed.

Lemma never_reopens_refl (g : Game) : never_reopens g g.
Proof. unfold never_reopens. split_and!; done. Qed.

Lemma never_reopens_trans (g1 g2 g3 : Game) :
  never_reopens g1 g2 → never_reopens g2 g3 → never_reopens g1 g3.
Proof.
  intros (Hs & Hc & Hm & Hr & Hw & Hb) (Hs' & Hc' & Hm' & Hr' & Hw' & Hb').
  unfold never_reopens. split_and!; try congruence; auto.
  by etrans.
Qed.

Lemma roll_never_reopens (g : Game) (forced : option Z) (d : Dice) :
  never_reopens g (roll g forced d).2.
Proof.
  destruct (over g) eqn:Hover.
  - rewrite roll_over by done. apply never_reopens_refl.
  - destruct (roll_not_over g forced d Hover) as (_ & _ & Ht & Hm & Hs & _).
    unfold never_reopens, open_tiles, board. rewrite Ht, Hm, Hs.
    split_and!; done.
Qed.

Lemma move_never_reopens (g : Game) (chosen : list Z) :
  never_reopens g (move g chosen).2.
Proof.
  destruct (move g chosen) as [[|] g'] eqn:Hm; simpl.
  - pose proof (move_board g chosen) as Hb. rewrite Hm in Hb. simpl in Hb.
    apply move_success_inv in Hm as (_ & r & _ & _ & Ht & _ & _ & Hmax & Hrule).
    unfold never_reopens. split_and!; try done.
    + unfold open_tiles. rewrite Ht. apply open_keys_close_sublist.
    + intros t. rewrite Ht. apply get_or_false_close.
    + rewrite Ht. apply wf_close_tiles.
  - pose proof (move_failure_frame g chosen) as H. rewrite Hm in H.
    simpl in H. rewrite H by done. apply never_reopens_refl.
Qed.

Lemma call_never_reopens (g : Game) (c : Call) : never_reopens g (call g c).2.
Proof.
  destruct c as [forced d | chosen]; simpl.
  - pose proof (roll_never_reopens g forced d). by destruct (roll g forced d).
  - pose proof (move_never_reopens g chosen). by destruct (move g chosen).
Qed.

(** X1. Whatever sequence of [roll] and [move] calls is made on a game, no
    tile is reopened: the open tiles afterwards are a subsequence of the open
    tiles before, a tile that reads closed stays closed, [tiles_max] and the
    single-die switch are untouched, and the keys stay [1..tiles_max]. *)
Theorem calls_never_reopen (g : Game) (cs : list Call) :
  never_reopens g (calls g cs).2.
Proof.
  revert g. induction cs as [|c cs IH]; intros g; simpl.
  - apply never_reopens_refl.
  - pose proof (call_never_reopens g c) as H1.
    destruct (call g c) as [a g1]. specialize (IH g1).
    destruct (calls g1 cs) as [rs g2]. simpl in *.
    by eapply never_reopens_trans.
Qed.

(** X2. Once [can_use_single_die] answers true it answers true after every
    later sequence of calls. *)
Theorem single_die_stays_available (g : Game) (cs : list Call) :
  can_use_single_die g = true → can_use_single_die (calls g cs).2 = true.
Proof.
  revert g. induction cs as [|c cs IH]; intros g Hg; [done |]. simpl.
  pose proof (call_never_reopens g c) as (_ & Hc & Hm & Hr & _).
  destruct (call g c) as [a g1]. specialize (IH g1).
  destruct (calls g1 cs) as [rs g2]. simpl in *. apply IH.
  revert Hg. rewrite !can_use_single_die_iff, Hm, Hr. intros [Hrule H].
  split; [done |]. intros t Ht Hle Hget.
  specialize (H t Ht Hle).
  assert (Dict.get_or_false (tiles g) t = false) as Hf.
  { unfold Dict.get_or_false. destruct (Dict.get (tiles g) t) as [[|]|]; done. }
  apply Hc in Hf. unfold Dict.get_or_false in Hf. by rewrite Hget in Hf.
Qed.

Lemma single_die_stays_available_witness :
  can_use_single_die
    (calls game9_low [CallRoll None (mkDice 6 1); CallMove [6]; CallMove [1]]).2
  = true.
Proof.
  apply single_die_stays_available. vm_compute. reflexivity.
Defined.

(** ** What a successful move removes *)

Lemma filter_all {A} (P : A → Prop) `{!∀ x, Decision (P x)} (l : list A) :
  (∀ x, x ∈ l → P x) → filter P l = l.
Proof.
  induction l as [|x l IH]; intros Hall; [done |].
  rewrite (filter_cons_True _ x) by (apply Hall; left).
  f_equal. apply IH. intros y Hy. apply Hall. by right.
Qed.

Lemma open_keys_are_keys (d : Dict.t) : open_keys d ⊆ Dict.keys d.
Proof.
  intros t Ht. unfold open_keys in Ht.
  apply list_elem_of_fmap in Ht as ([k v] & -> & H).
  apply list_elem_of_filter in H as [_ H].
  unfold Dict.keys. apply list_elem_of_fmap. by exists (k, v).
Qed.

Lemma open_keys_cons_open (k : Z) (d : Dict.t) :
  open_keys ((k, true) :: d) = k :: open_keys d.
Proof. unfold open_keys. by rewrite (filter_cons_True _ (k, true)). Qed.

Lemma open_keys_cons_closed (k : Z) (d : Dict.t) :
  open_keys ((k, false) :: d) = open_keys d.
Proof. unfold open_keys. by rewrite (filter_cons_False _ (k, false)). Qed.

Lemma open_keys_set_filter (d : Dict.t) (t : Z) :
  Dict.wf d → open_keys (Dict.set d t false) = filter (λ x, x ≠ t) (open_keys d).
Proof.
  unfold Dict.wf, Dict.keys.
  induction d as [|[k v] d IH]; intros Hwf; [done |].
  cbn [map fst] in Hwf. apply NoDup_cons in Hwf as [Hk Hwf].
  cbn [Dict.set]. destruct (Z.eqb_spec k t) as [-> | Hne].
  - assert (Hrest : filter (λ x, x ≠ t) (open_keys d) = open_keys d).
    { apply filter_all. intros x Hx ->. by apply Hk, open_keys_are_keys. }
    rewrite open_keys_cons_closed. destruct v.
    + rewrite open_keys_cons_open.
      rewrite (filter_cons_False _ t) by (intros Hq; by apply Hq). by rewrite Hrest.
    + by rewrite open_keys_cons_closed, Hrest.
  - specialize (IH Hwf). destruct v.
    + rewrite !open_keys_cons_open.
      rewrite (filter_cons_True _ k) by done. by rewrite IH.
    + by rewrite !open_keys_cons_closed.
Qed.

Lemma open_keys_close (cs : list Z) :
  ∀ d, Dict.wf d →
       open_keys (close_tiles d cs) = filter (λ x, x ∉ cs) (open_keys d).
Proof.
  induction cs as [|c cs IH]; intros d Hwf.
  - symmetry. apply filter_all. intros x _. apply not_elem_of_nil.
  - change (close_tiles d (c :: cs)) with (close_tiles (Dict.set d c false) cs).
    rewrite IH by (by apply wf_set). rewrite open_keys_set_filter by done.
    rewrite list_filter_filter. apply list_filter_iff.
    intros x. rewrite not_elem_of_cons. tauto.
Qed.

Lemma sum_filter_split (P : Z → Prop) `{!∀ x, Decision (P x)} (l : list Z) :
  Py.sum l = Py.sum (filter P l) + Py.sum (filter (λ x, ¬ P x) l).
Proof.
  rewrite <- sum_app. symmetry. apply sum_Permutation, filter_app_complement.
Qed.

(** The moves [move] accepts: the pending roll is set, the tiles are open
    and distinct, and their sum is the roll. *)
Lemma accepted_move (g : Game) (chosen : list Z) (g' : Game) :
  move g chosen = (true, g') → Dict.wf (tiles g) →
  ∃ r, last_roll g = Some r ∧ chosen ≠ [] ∧ NoDup chosen
       ∧ chosen ⊆ open_tiles g ∧ Py.sum chosen = r.
Proof.
  intros (_ & r & Hr & Hin & _)%move_success_inv Hwf. exists r.
  apply (combos_that_sum_enumerates _ r (open_tiles_NoDup g Hwf))
    in Hin as (Hne & Hs & Hsub & Hsum).
  pose proof (sorted_Permutation chosen) as Hp. split_and!; try done.
  - intros ->. by apply Hne.
  - rewrite <- Hp. clear -Hs.
    induction Hs as [|x l Hs IH Hx]; constructor; [| done].
    intros Hin. rewrite Forall_forall in Hx. specialize (Hx x Hin). lia.
  - intros x Hx. apply Hsub. by rewrite Hp.
  - by rewrite <- (sum_Permutation _ _ Hp).
Qed.

Lemma move_open_tiles (g : Game) (chosen : list Z) (g' : Game) :
  move g chosen = (true, g') → Dict.wf (tiles g) →
  open_tiles g' = filter (λ t, t ∉ chosen) (open_tiles g).
Proof.
  intros (_ & r & _ & _ & Ht & _)%move_success_inv Hwf.
  change (open_tiles g') with (open_keys (tiles g')).
  rewrite Ht, open_keys_close by done.
  apply list_filter_iff. intros x. by rewrite sorted_Permutation.
Qed.

Lemma move_shrinks (g : Game) (chosen : list Z) (g' : Game) :
  move g chosen = (true, g') → Dict.wf (tiles g) →
  (length (open_tiles g') < length (open_tiles g))%nat.
Proof.
  intros Hm Hwf. rewrite (move_open_tiles g chosen g' Hm Hwf).
  destruct (accepted_move g chosen g' Hm Hwf) as (_ & _ & Hne & _ & Hsub & _).
  destruct chosen as [|t ts]; [done |].
  apply (length_filter_lt _ _ t).
  - apply Hsub. left.
  - intros H. apply H. left.
Qed.

(** X3. A successful move takes exactly the chosen tiles out of the open
    tiles and lowers the score by the pending roll; the chosen tiles were
    open, pairwise distinct and at least one. *)
Theorem move_success_effect (g : Game) (chosen : list Z) (g' : Game) :
  move g chosen = (true, g') → Dict.wf (tiles g) →
  ∃ r, last_roll g = Some r
       ∧ chosen ≠ [] ∧ NoDup chosen ∧ chosen ⊆ open_tiles g
       ∧ open_tiles g' = filter (λ t, t ∉ chosen) (open_tiles g)
       ∧ score g' = score g - r
       ∧ (length (open_tiles g') < length (open_tiles g))%nat.
Proof.
  intros Hm Hwf.
  destruct (accepted_move g chosen g' Hm Hwf) as (r & Hr & Hne & Hnd & Hsub & Hsum).
  pose proof (move_open_tiles g chosen g' Hm Hwf) as Hopen.
  exists r. split_and!; try done.
  - unfold score. rewrite Hopen.
    rewrite (sum_filter_split (λ t, t ∉ chosen) (open_tiles g)).
    assert (Hp : filter (λ x, ¬ (x ∉ chosen)) (open_tiles g) ≡ₚ chosen).
    { apply NoDup_Permutation; [| done |].
      - apply NoDup_filter, open_tiles_NoDup, Hwf.
      - intros x. rewrite list_elem_of_filter. split.
        + intros [Hx _]. by destruct (decide (x ∈ chosen)).
        + intros Hx. split; [by intros H | by apply Hsub]. }
    rewrite (sum_Permutation _ _ Hp). lia.
  - by apply (move_shrinks g chosen g').
Qed.

Lemma move_success_effect_witness :
  score (move (roll game9 (Some 9) (mkDice 1 1)).2 [5; 4]).2 = 45 - 9
  ∧ open_tiles (move (roll game9 (Some 9) (mkDice 1 1)).2 [5; 4]).2
    = filter (λ t, t ∉ [5; 4]) (open_tiles (roll game9 (Some 9) (mkDice 1 1)).2).
Proof.
  assert (Hm : move (roll game9 (Some 9) (mkDice 1 1)).2 [5; 4]
               = (true, (move (roll game9 (Some 9) (mkDice 1 1)).2 [5; 4]).2))
    by (vm_compute; reflexivity).
  assert (Hwf : Dict.wf (tiles (roll game9 (Some 9) (mkDice 1 1)).2)).
  { unfold Dict.wf. apply (bool_decide_unpack _). vm_compute. exact I. }
  destruct (move_success_effect _ _ _ Hm Hwf) as (r & Hr & _ & _ & _ & Ho & Hs & _).
  split; [| exact Ho].
  rewrite Hs. vm_compute in Hr. injection Hr as <-. vm_compute. reflexivity.
Defined.

(** ** A new game, and the range of the score *)

Lemma sum_tile_ids (n : Z) : 0 <= n → 2 * Py.sum (tile_ids n) = n * (n + 1).
Proof.
  intros Hn. unfold tile_ids.
  assert (H : ∀ k : nat, 2 * Py.sum (map Z.of_nat (seq 1 k))
                         = Z.of_nat k * (Z.of_nat k + 1)).
  { induction k as [|k IH]; [done |].
    rewrite seq_S, map_app, sum_app. simpl. lia. }
  rewrite H. lia.
Qed.

Lemma open_keys_all_open (ids : list Z) :
  open_keys (map (λ i, (i, true)) ids) = ids.
Proof.
  induction ids as [|i ids IH]; [done |].
  cbn [map]. by rewrite open_keys_cons_open, IH.
Qed.

(** X4. [Game(tiles_max, single_die_rule)] is refused exactly when
    [tiles_max < 1]; otherwise the game starts with the tiles
    [1..tiles_max] all open, in ascending order, the score
    [tiles_max * (tiles_max + 1) / 2], no pending roll, and not over. *)
Theorem new_game_spec (n : Z) (single : bool) :
  (new_game n single = None ↔ n < 1)
  ∧ (∀ g, new_game n single = Some g →
       tiles_max g = n ∧ single_die_rule g = single
       ∧ board g ∧ Dict.wf (tiles g)
       ∧ open_tiles g = tile_ids n
       ∧ 2 * score g = n * (n + 1)
       ∧ over g = false ∧ last_roll g = None).
Proof.
  unfold new_game. destruct (Z.ltb_spec n 1) as [Hlt | Hge].
  - split; [done |]. intros g [=].
  - split; [split; [done | lia] |]. intros g [= <-].
    assert (Hopen : open_tiles {| tiles_max := n; single_die_rule := single;
                      tiles := map (λ i, (i, true)) (tile_ids n);
                      over := false; last_roll := None |} = tile_ids n)
      by apply open_keys_all_open.
    assert (Hkeys : Dict.keys (map (λ i, (i, true)) (tile_ids n)) = tile_ids n).
    { unfold Dict.keys. rewrite <- list_fmap_compose. apply list_fmap_id. }
    split_and!; try done.
    + unfold Dict.wf. simpl. rewrite Hkeys. unfold tile_ids.
      apply NoDup_fmap_2; [apply _ | apply NoDup_ListNoDup, seq_NoDup].
    + unfold score. rewrite Hopen. apply sum_tile_ids. lia.
Qed.

Lemma new_game_spec_witness :
  new_game 0 true = None ∧ open_tiles game9 = tile_ids 9 ∧ 2 * score game9 = 9 * 10.
Proof.
  split; [apply (proj1 (new_game_spec 0 true)); lia |].
  destruct (proj2 (new_game_spec 9 true) game9 eq_refl)
    as (_ & _ & _ & _ & Ho & Hs & _).
  split; [exact Ho | exact Hs].
Defined.

Lemma board_wf (g : Game) : board g → Dict.wf (tiles g).
Proof.
  unfold board, Dict.wf. intros ->. unfold tile_ids.
  apply NoDup_fmap_2; [apply _ | apply NoDup_ListNoDup, seq_NoDup].
Qed.

Lemma board_open_positive (g : Game) :
  board g → Forall (λ t, 1 <= t <= tiles_max g) (open_tiles g).
Proof.
  intros Hb. apply Forall_forall. intros t Ht.
  apply open_tiles_are_keys in Ht. rewrite Hb in Ht.
  by apply elem_of_tile_ids.
Qed.

Lemma sum_sublist_le (l k : list Z) :
  l `sublist_of` k → Forall (λ t, 0 <= t) k → Py.sum l <= Py.sum k.
Proof.
  induction 1 as [| x l k _ IH | x l k _ IH]; intros Hk; simpl; [done | |].
  - apply Forall_cons in Hk as [_ Hk]. specialize (IH Hk). lia.
  - apply Forall_cons in Hk as [Hx Hk]. specialize (IH Hk). lia.
Qed.

Lemma sum_nonneg (l : list Z) : Forall (λ t, 0 <= t) l → 0 <= Py.sum l.
Proof. induction 1; simpl; lia. Qed.

(** X5. On a board (keys [1..tiles_max]) the score never goes up: after any
    sequence of calls it is between 0 and the score before, which is itself
    at most [tiles_max * (tiles_max + 1) / 2]. *)
Theorem score_never_increases (g : Game) (cs : list Call) :
  board g →
  0 <= score (calls g cs).2 <= score g
  ∧ 2 * score g <= Z.max 0 (tiles_max g) * (Z.max 0 (tiles_max g) + 1).
Proof.
  intros Hb. split.
  - revert g Hb. induction cs as [|c cs IH]; intros g Hb; simpl.
    + split; [| done]. apply sum_nonneg.
      eapply Forall_impl; [exact (board_open_positive g Hb) |]. simpl. lia.
    + pose proof (call_never_reopens g c) as (Hsub & _ & _ & _ & _ & Hb1).
      destruct (call g c) as [a g1]. specialize (IH g1 (Hb1 Hb)).
      destruct (calls g1 cs) as [rs g2]. simpl in *.
      assert (score g1 <= score g); [| lia].
      apply sum_sublist_le; [done |].
      eapply Forall_impl; [exact (board_open_positive g Hb) |]. simpl. lia.
  - assert (Hids : tile_ids (tiles_max g) = tile_ids (Z.max 0 (tiles_max g))).
    { unfold tile_ids. f_equal. f_equal. lia. }
    rewrite <- sum_tile_ids by lia. rewrite <- Hids, <- Hb.
    assert (Py.sum (open_tiles g) <= Py.sum (Dict.keys (tiles g))); [| unfold score; lia].
    apply sum_sublist_le.
    + unfold open_tiles, Dict.keys. apply fmap_sublist, sublist_filter.
    + rewrite Hb. apply Forall_forall. intros t Ht.
      apply elem_of_tile_ids in Ht. lia.
Qed.

Lemma score_never_increases_witness :
  0 <= score (calls game9 close_7_8_9).2 <= score game9.
Proof.
  apply (score_never_increases game9 close_7_8_9). reflexivity.
Defined.

Lemma roll_range_witness :
  2 <= (roll game9 None (mkDice 3 4)).1 <= 12
  ∧ 1 <= (roll game9_low None (mkDice 3 4)).1 <= 6.
Proof.
  assert (Hd : dice_ok (mkDice 3 4)) by (unfold dice_ok; simpl; lia).
  split.
  - exact (roll_range game9 (mkDice 3 4) eq_refl Hd).
  - exact (roll_range game9_low (mkDice 3 4) eq_refl Hd).
Defined.

(** ** Which moves the engine accepts *)

Lemma sorted_unique (l k : list Z) :
  l ≡ₚ k → StronglySorted Z.le k → Py.sorted l = k.
Proof.
  intros Hp Hk. apply (StronglySorted_unique Z.le).
  - apply sorted_ascending.
  - done.
  - by rewrite sorted_Permutation.
Qed.

Lemma strictly_ascending_le (l : list Z) :
  StronglySorted Z.lt l → StronglySorted Z.le l.
Proof.
  induction 1 as [|x l Hl IH Hx]; constructor; [done |].
  eapply Forall_impl; [exact Hx |]. simpl. lia.
Qed.

Lemma sublist_ascending (c l : list Z) :
  c `sublist_of` l → StronglySorted Z.le l → StronglySorted Z.le c.
Proof.
  induction 1 as [| x c l Hsub IH | x c l Hsub IH]; intros Hl.
  - constructor.
  - apply StronglySorted_inv in Hl as [Hl Hx]. constructor; [auto |].
    rewrite Forall_forall in Hx |- *. intros y Hy. apply Hx.
    eapply elem_of_sublist; eauto.
  - apply StronglySorted_inv in Hl as [Hl _]. auto.
Qed.

Lemma combo_ascending (nums : list Z) (target : Z) (c : list Z) :
  c ∈ combos_that_sum nums target → StronglySorted Z.le c.
Proof.
  rewrite elem_of_combos_that_sum. intros (_ & Hsub & _).
  eapply sublist_ascending; [exact Hsub | apply sorted_ascending].
Qed.

Lemma available_move_sorted (g : Game) (r : Z) (mv : list Z) :
  mv ∈ available_moves g r → Py.sorted mv = mv.
Proof.
  intros Hin. apply sorted_unique; [done |]. by eapply combo_ascending.
Qed.

Lemma move_accepts_listed (g : Game) (r : Z) (mv : list Z) :
  over g = false → last_roll g = Some r → mv ∈ available_moves g r →
  (move g mv).1 = true.
Proof.
  intros Hover Hr Hin. unfold move. rewrite Hover, Hr.
  rewrite (available_move_sorted g r mv Hin).
  rewrite bool_decide_eq_true_2 by done. simpl.
  match goal with |- context [is_empty ?o] => destruct (is_empty o) end; done.
Qed.

Lemma sorted_in_available (g : Game) (r : Z) (mv : list Z) :
  Dict.wf (tiles g) → mv ≠ [] → NoDup mv → mv ⊆ open_tiles g → Py.sum mv = r →
  Py.sorted mv ∈ available_moves g r.
Proof.
  intros Hwf Hne Hnd Hsub Hsum.
  apply (combos_that_sum_enumerates _ r (open_tiles_NoDup g Hwf)).
  pose proof (sorted_Permutation mv) as Hp. split_and!.
  - intros Hnil. rewrite Hnil in Hp. by apply Permutation_nil_l in Hp.
  - by apply sorted_strictly_ascending.
  - intros x Hx. apply Hsub. by rewrite <- Hp.
  - by rewrite (sum_Permutation _ _ Hp).
Qed.

(** X6. [move(chosen)] succeeds exactly when the game is not over, a roll is
    pending, and [chosen] is a non-empty collection of pairwise distinct open
    tiles, in any order, whose sum is that roll. *)
Theorem move_succeeds_iff (g : Game) (chosen : list Z) :
  Dict.wf (tiles g) →
  ((move g chosen).1 = true ↔
   over g = false
   ∧ ∃ r, last_roll g = Some r ∧ chosen ≠ [] ∧ NoDup chosen
          ∧ chosen ⊆ open_tiles g ∧ Py.sum chosen = r).
Proof.
  intros Hwf. split.
  - intros Hm. destruct (move g chosen) as [ok g'] eqn:Heq. simpl in Hm. subst ok.
    split; [by apply move_success_inv in Heq as [? _] |].
    by apply (accepted_move g chosen g').
  - intros (Hover & r & Hr & Hne & Hnd & Hsub & Hsum).
    pose proof (sorted_in_available g r chosen Hwf Hne Hnd Hsub Hsum) as Hin.
    unfold move. rewrite Hover, Hr, bool_decide_eq_true_2 by done. simpl.
    match goal with |- context [is_empty ?o] => destruct (is_empty o) end; done.
Qed.

Lemma move_succeeds_iff_witness :
  (move (roll game9 (Some 9) (mkDice 1 1)).2 [6; 1; 2]).1 = true.
Proof.
  assert (Hwf : Dict.wf (tiles (roll game9 (Some 9) (mkDice 1 1)).2)).
  { unfold Dict.wf. apply (bool_decide_unpack _). vm_compute. exact I. }
  apply (move_succeeds_iff _ _ Hwf). split; [reflexivity |].
  exists 9. split_and!; try reflexivity; try discriminate.
  - apply (bool_decide_unpack _). vm_compute. exact I.
  - apply (bool_decide_unpack _). vm_compute. exact I.
Defined.

(** ** The policy module's enumeration against the engine's *)

Lemma pair_in_pair_moves (opens : list Z) (r a b : Z) :
  [a; b] `sublist_of` opens → a + b = r → [a; b] ∈ pair_moves opens r.
Proof.
  induction opens as [|x opens IH]; intros Hsub Hsum.
  - by apply sublist_nil_r in Hsub.
  - cbn [pair_moves]. apply elem_of_app.
    apply sublist_cons_r in Hsub as [Hsub | (l' & [= -> <-] & Hsub)].
    + right. by apply IH.
    + left. apply list_elem_of_fmap. exists b. split; [done |].
      apply list_elem_of_filter. split; [done |].
      by apply singleton_sublist_l.
Qed.

Lemma two_in_order (l : list Z) (a b : Z) :
  a ∈ l → b ∈ l → a ≠ b → [a; b] `sublist_of` l ∨ [b; a] `sublist_of` l.
Proof.
  induction l as [|x l IH]; intros Ha Hb Hne.
  - by apply elem_of_nil in Ha.
  - apply elem_of_cons in Ha as [-> | Ha]; apply elem_of_cons in Hb as [-> | Hb].
    + done.
    + left. apply sublist_skip. by apply singleton_sublist_l.
    + right. apply sublist_skip. by apply singleton_sublist_l.
    + destruct (IH Ha Hb Hne) as [H | H]; [left | right]; by apply sublist_cons.
Qed.

(** X7. On a game whose dict has distinct keys, the moves the policy module
    enumerates are, up to the order of their tiles, exactly the engine's
    legal moves of at most two tiles: each one, sorted, is in
    [available_moves]; and each one- or two-tile element of [available_moves]
    is the sorted form of an enumerated move. *)
Theorem legal_moves_are_short_available (g : Game) (r : Z) :
  Dict.wf (tiles g) →
  (∀ mv, mv ∈ compute_legal_moves g r → Py.sorted mv ∈ available_moves g r)
  ∧ (∀ c, c ∈ available_moves g r → (length c <= 2)%nat →
       ∃ mv, mv ∈ compute_legal_moves g r ∧ Py.sorted mv = c).
Proof.
  intros Hwf. pose proof (open_tiles_NoDup g Hwf) as Hnd. split.
  - intros mv Hmv.
    pose proof (elem_of_compute_legal_moves g r mv Hmv) as (Hlen & Hsum & Hsub).
    apply sorted_in_available; try done.
    + intros ->. simpl in Hlen. lia.
    + unfold compute_legal_moves in Hmv. apply elem_of_app in Hmv as [H | H].
      * apply list_elem_of_fmap in H as (t & -> & _). apply NoDup_singleton.
      * apply elem_of_pair_moves in H as (a & b & -> & _ & Hs).
        eapply sublist_NoDup; [exact Hnd | exact Hs].
  - intros c Hc Hlen. pose proof (available_move_sorted g r c Hc) as Hsorted.
    apply (combos_that_sum_enumerates _ r Hnd) in Hc as (Hne & Hs & Hsub & Hsum).
    destruct c as [|a [|b [|? ?]]]; [done | | | simpl in Hlen; lia].
    + exists [a]. split; [| done]. unfold compute_legal_moves.
      apply elem_of_app. left. apply list_elem_of_fmap. exists a. split; [done |].
      apply list_elem_of_filter. simpl in Hsum. split; [lia |]. apply Hsub. left.
    + assert (Hab : a < b).
      { apply StronglySorted_inv in Hs as [_ Hs].
        by apply Forall_cons in Hs as [? _]. }
      assert (Ha : a ∈ open_tiles g) by (apply Hsub; left).
      assert (Hb : b ∈ open_tiles g) by (apply Hsub; right; left).
      simpl in Hsum.
      destruct (two_in_order (open_tiles g) a b Ha Hb) as [H | H]; [lia | |].
      * exists [a; b]. split; [| done]. unfold compute_legal_moves.
        apply elem_of_app. right. apply pair_in_pair_moves; [done | lia].
      * exists [b; a]. split.
        -- unfold compute_legal_moves. apply elem_of_app. right.
           apply pair_in_pair_moves; [done | lia].
        -- apply sorted_unique; [apply perm_swap |].
           apply strictly_ascending_le, Hs.
Qed.

Lemma legal_moves_are_short_available_witness :
  Py.sorted [4; 5] ∈ available_moves game9 9
  ∧ ∃ mv, mv ∈ compute_legal_moves game9 9 ∧ Py.sorted mv = [1; 8].
Proof.
  assert (Hwf : Dict.wf (tiles game9)).
  { unfold Dict.wf. apply (bool_decide_unpack _). vm_compute. exact I. }
  destruct (legal_moves_are_short_available game9 9 Hwf) as [H1 H2]. split.
  - apply H1. vm_compute. repeat constructor.
  - apply H2; [vm_compute; repeat constructor | simpl; lia].
Defined.

(** ** The simulation loop *)

(** What [run_one] needs from a policy: it leaves the board alone, and on a
    game that is not over the move it answers is listed for the roll that is
    pending afterwards. *)
Lemma roll_then_listed (g : Game) (d : Dice) (mv : list Z) :
  over g = false → mv ∈ available_moves (roll g None d).2 (roll g None d).1 →
  over (roll g None d).2 = false
  ∧ last_roll (roll g None d).2 = Some (roll g None d).1.
Proof.
  intros Hover Hin.
  destruct (roll_not_over g None d Hover) as (Hr & Hl & Ht & _ & _ & Ho).
  rewrite Hl, Hr. split; [| done]. rewrite Ho.
  unfold available_moves, open_tiles in *. rewrite Ht, Hr in Hin.
  destruct (combos_that_sum _ _); [by apply elem_of_nil in Hin | done].
Qed.

Lemma policy_random_sound (g : Game) (i : Dice * nat) (mv : list Z) (g1 : Game) :
  over g = false → strategy_random g i = (Some mv, g1) →
  over g1 = false ∧ ∃ r, last_roll g1 = Some r ∧ mv ∈ available_moves g1 r.
Proof.
  unfold strategy_random, Sim.policy_random. intros Hover.
  pose proof (roll_then_listed g i.1 mv Hover) as H.
  destruct (roll g None i.1) as [r g']. simpl in *.
  destruct (is_empty _) eqn:He; intros [= Hc <-].
  apply elem_of_choice in Hc. destruct (H Hc). eauto.
Qed.

Lemma policy_greedy_sound (g : Game) (i : Dice) (mv : list Z) (g1 : Game) :
  over g = false → strategy_greedy g i = (Some mv, g1) →
  over g1 = false ∧ ∃ r, last_roll g1 = Some r ∧ mv ∈ available_moves g1 r.
Proof.
  unfold strategy_greedy, Sim.policy_greedy_min_remaining. intros Hover.
  pose proof (roll_then_listed g i mv Hover) as H.
  destruct (roll g None i) as [r g']. simpl in *.
  destruct (is_empty _) eqn:He; intros [= Hc <-].
  apply min_by_elem in Hc. destruct (H Hc). eauto.
Qed.

Lemma policy_human_sound (g : Game) (i : Dice * Dice) (mv : list Z) (g1 : Game) :
  over g = false → strategy_human g i = (Some mv, g1) →
  over g1 = false ∧ ∃ r, last_roll g1 = Some r ∧ mv ∈ available_moves g1 r.
Proof.
  unfold strategy_human, Sim.policy_human_like. intros Hover.
  pose proof (roll_then_listed g i.1) as H.
  destruct (roll g None i.1) as [r g'] eqn:Hroll. simpl in *.
  destruct (available_moves g' r) as [|m ms] eqn:Hmoves; [done |].
  cbn [is_empty].
  destruct (is_empty (multi_tile (m :: ms))) eqn:He; cbn [negb].
  - assert (Hm : m ∈ m :: ms) by left.
    destruct (H m Hover Hm) as [Hover' _].
    apply (policy_greedy_sound g' i.2 mv g1 Hover').
  - intros [= Hc <-]. apply min_by_elem, elem_of_multi_tile in Hc.
    destruct (H mv Hover Hc) as [Hover' Hlast]. split; [done |].
    exists r. split; [done |]. by rewrite Hmoves.
Qed.

Lemma strategies_keep_board :
  (∀ g i, never_reopens g (strategy_random g i).2)
  ∧ (∀ g i, never_reopens g (strategy_greedy g i).2)
  ∧ (∀ g i, never_reopens g (strategy_human g i).2).
Proof.
  assert (Hg : ∀ g i, never_reopens g (strategy_greedy g i).2).
  { intros g i. pose proof (roll_never_reopens g None i) as H.
    unfold strategy_greedy, Sim.policy_greedy_min_remaining.
    destruct (roll g None i) as [r g1]. by destruct (is_empty _). }
  split_and!; [| done |].
  - intros g i. pose proof (roll_never_reopens g None i.1) as H.
    unfold strategy_random, Sim.policy_random. by destruct (roll g None i.1).
  - intros g i. pose proof (roll_never_reopens g None i.1) as H.
    unfold strategy_human, Sim.policy_human_like.
    destruct (roll g None i.1) as [r g1]. simpl in *.
    destruct (is_empty (available_moves g1 r)); [done |].
    destruct (negb _); [done |].
    eapply never_reopens_trans; [exact H | apply Hg].
Qed.

Section RunOne.
Context {I : Type} (policy : Game → I → option TileSet * Game).
Hypothesis policy_keeps_board : ∀ g i, never_reopens g (policy g i).2.
Hypothesis policy_sound : ∀ g i mv g1,
  over g = false → policy g i = (Some mv, g1) →
  over g1 = false ∧ ∃ r, last_roll g1 = Some r ∧ mv ∈ available_moves g1 r.

Lemma run_one_returns (inputs : list I) :
  ∀ g, Dict.wf (tiles g) →
       (length (open_tiles g) < length inputs)%nat →
       ∃ gf, run_one policy g inputs = Some (Returned (score gf))
             ∧ never_reopens g gf.
Proof.
  induction inputs as [|i rest IH]; intros g Hwf Hlen; [simpl in Hlen; lia |].
  cbn [run_one]. destruct (over g) eqn:Hover.
  { exists g. split; [done | apply never_reopens_refl]. }
  pose proof (policy_keeps_board g i) as Hkeep.
  pose proof (policy_sound g i) as Hsound.
  destruct (policy g i) as [[mv|] g1]; simpl in Hkeep.
  2: { exists g1. split; [reflexivity | exact Hkeep]. }
  destruct (Hsound mv g1 Hover eq_refl) as (Hover1 & r & Hr & Hin).
  pose proof (move_accepts_listed g1 r mv Hover1 Hr Hin) as Hok.
  pose proof (move_never_reopens g1 mv) as Hkeep2.
  destruct (move g1 mv) as [ok g2] eqn:Hm. simpl in Hok, Hkeep2. subst ok.
  pose proof Hkeep as (Hsub & Hrest).
  assert (Hwf1 : Dict.wf (tiles g1)) by (by apply Hrest).
  pose proof (move_shrinks g1 mv g2 Hm Hwf1) as Hlt.
  apply sublist_length in Hsub.
  destruct (IH g2) as (gf & Hrun & Hgf).
  - by apply Hkeep2.
  - simpl in Hlen. lia.
  - exists gf. split; [exact Hrun |].
    eapply never_reopens_trans; [| exact Hgf].
    eapply never_reopens_trans; [exact Hkeep | exact Hkeep2].
Qed.
End RunOne.

(** X8. [run_one] with any of the three strategies of the simulation ends
    within one turn more than there are open tiles, returns a score and never
    raises its [RuntimeError]: the score is that of a game whose open tiles
    are among those it started with. *)
Theorem run_one_never_raises (g : Game) :
  Dict.wf (tiles g) →
  (∀ inputs, (length (open_tiles g) < length inputs)%nat →
     ∃ gf, run_one strategy_random g inputs = Some (Returned (score gf))
           ∧ never_reopens g gf)
  ∧ (∀ inputs, (length (open_tiles g) < length inputs)%nat →
     ∃ gf, run_one strategy_greedy g inputs = Some (Returned (score gf))
           ∧ never_reopens g gf)
  ∧ (∀ inputs, (length (open_tiles g) < length inputs)%nat →
     ∃ gf, run_one strategy_human g inputs = Some (Returned (score gf))
           ∧ never_reopens g gf).
Proof.
  intros Hwf. destruct strategies_keep_board as (Hr & Hg & Hh).
  split_and!; intros inputs Hlen.
  - by apply (run_one_returns strategy_random Hr policy_random_sound).
  - by apply (run_one_returns strategy_greedy Hg policy_greedy_sound).
  - by apply (run_one_returns strategy_human Hh policy_human_sound).
Qed.

Lemma run_one_never_raises_witness :
  ∃ gf, run_one strategy_greedy game9
          (replicate 10 (mkDice 3 4)) = Some (Returned (score gf))
        ∧ never_reopens game9 gf.
Proof.
  assert (Hwf : Dict.wf (tiles game9)).
  { unfold Dict.wf. apply (bool_decide_unpack _). vm_compute. exact I. }
  apply (proj1 (proj2 (run_one_never_raises game9 Hwf))).
  vm_compute. lia.
Defined.

Example run_one_example :
  run_one strategy_greedy game9 (replicate 10 (mkDice 3 4)) = Some (Returned 31).
Proof. vm_compute. reflexivity. Qed.

(** ** The engine variant of visual_demo.py against game.py *)

Lemma can_choose_is_can_use (g : Game) :
  Variant.can_choose_die_count g = can_use_single_die g.
Proof.
  unfold Variant.can_choose_die_count, can_use_single_die.
  by destruct (single_die_rule g).
Qed.

(** X9. The [Game] of [visual_demo.py] and the one of [game.py] have the same
    eligibility query and agree on every forced roll; unforced, the variant
    rolls one die only when that is allowed and [dice=1] is asked, and two
    dice otherwise, while [game.py] takes the single die as soon as it is
    allowed: its [roll()] is the variant's [roll(dice=1)]. *)
Theorem variant_roll_agreement :
  (∀ g, Variant.can_choose_die_count g = can_use_single_die g)
  ∧ (∀ g v dice d, Variant.roll g (Some v) dice d = roll g (Some v) d)
  ∧ (∀ g d, Variant.roll g None (Some 1) d = roll g None d)
  ∧ (∀ g dice d, over g = false →
       (Variant.roll g None dice d).1
       = if can_use_single_die g && bool_decide (dice = Some 1)
         then die1 d else die1 d + die2 d).
Proof.
  split_and!.
  - apply can_choose_is_can_use.
  - intros g v dice d. unfold Variant.roll, roll. by destruct (over g).
  - intros g d. unfold Variant.roll, roll. rewrite can_choose_is_can_use.
    destruct (over g); [done |].
    destruct (can_use_single_die g); simpl;
      replace (die1 d + 0) with (die1 d) by lia;
      replace (die1 d + (die2 d + 0)) with (die1 d + die2 d) by lia; done.
  - intros g dice d Hover. unfold Variant.roll.
    rewrite Hover, can_choose_is_can_use.
    assert (Hr : (if can_use_single_die g then Variant.requested_count dice
                  else 2%nat)
                 = if can_use_single_die g && bool_decide (dice = Some 1)
                   then 1%nat else 2%nat).
    { destruct (can_use_single_die g); [| done]. simpl.
      case_bool_decide as Hd; [by subst |].
      destruct dice as [[|p|p]|]; try done.
      destruct p as [p|p|]; try done; destruct p; done. }
    rewrite Hr.
    destruct (can_use_single_die g && bool_decide (dice = Some 1)); simpl;
      match goal with |- context [is_empty ?o] => destruct (is_empty o) end;
      simpl; lia.
Qed.

(** ** The human-like policy *)

(** X10. When the roll it makes has a move of two or more tiles, the
    human-like policy answers the first such move of the sorted list and
    keeps the game as that roll left it; when the roll has moves but only
    single tiles, it answers what the greedy policy answers after rolling
    again. *)
Theorem human_like_prefers_multi_tile (g : Game) (d d' : Dice) :
  let r := (roll g None d).1 in
  let g1 := (roll g None d).2 in
  let multi := multi_tile (available_moves g1 r) in
  (multi ≠ [] →
   Sim.policy_human_like g d d' = (head multi, g1)
   ∧ ∀ mv, head multi = Some mv →
       (2 <= length mv)%nat ∧ mv ∈ available_moves g1 r)
  ∧ (available_moves g1 r ≠ [] → multi = [] →
     Sim.policy_human_like g d d' = Sim.policy_greedy_min_remaining g1 d').
Proof.
  intros r g1 multi. subst r g1 multi. unfold Sim.policy_human_like.
  destruct (roll g None d) as [r g1]. simpl. split.
  - intros Hne. split.
    + destruct (available_moves g1 r) as [|m ms] eqn:Hmoves; [done |].
      cbn [is_empty]. destruct (multi_tile (m :: ms)) as [|x xs] eqn:Hmulti; [done |].
      cbn [is_empty negb]. f_equal.
      rewrite (min_by_ties _ (Py.sum (open_tiles g1) - r)); [done |].
      intros y Hy. rewrite <- Hmulti in Hy. apply elem_of_multi_tile in Hy.
      rewrite <- Hmoves in Hy. unfold remaining_key.
      by rewrite (available_moves_sum g1 r y Hy).
    + intros mv Hmv. apply head_Some_elem_of in Hmv.
      unfold multi_tile in Hmv. by apply list_elem_of_filter in Hmv.
  - intros Hne Hmulti. rewrite Hmulti.
    by destruct (available_moves g1 r).
Qed.

Lemma human_like_prefers_multi_tile_witness :
  Sim.policy_human_like game9 (mkDice 2 3) (mkDice 1 1)
  = (Some [1; 4], game9_rolled_5).
Proof.
  destruct (human_like_prefers_multi_tile game9 (mkDice 2 3) (mkDice 1 1))
    as [H _].
  destruct H as [H _]; [vm_compute; discriminate |].
  rewrite H. vm_compute. reflexivity.
Defined.

(** ** The enumerator on arbitrary input *)

(** X11. [combos_that_sum] does not depend on the order of its input, and on
    any input, repeated values included, its result is free of duplicates
    and in strictly ascending lexicographic order, every tuple in it is
    non-empty, ascending, taken from the input and sums to the target. *)
Theorem combos_that_sum_any_input (nums : list Z) (target : Z) :
  (∀ nums', nums ≡ₚ nums' →
     combos_that_sum nums target = combos_that_sum nums' target)
  ∧ NoDup (combos_that_sum nums target)
  ∧ StronglySorted Py.tuple_lt (combos_that_sum nums target)
  ∧ (∀ c, c ∈ combos_that_sum nums target →
       c ≠ [] ∧ StronglySorted Z.le c ∧ c ⊆ nums ∧ Py.sum c = target
       ∧ (length c <= length nums)%nat).
Proof.
  split_and!.
  - intros nums' Hp. unfold combos_that_sum.
    assert (Py.sorted nums = Py.sorted nums') as ->; [| done].
    apply sorted_unique; [| apply sorted_ascending].
    by rewrite Hp, sorted_Permutation.
  - apply NoDup_sorted_set.
  - apply sorted_set_ascending.
  - intros c Hc. pose proof Hc as Hc'.
    apply elem_of_combos_that_sum in Hc as (Hne & Hsub & Hsum).
    split_and!; try done.
    + by eapply combo_ascending.
    + intros x Hx. eapply elem_of_sublist in Hsub; [| exact Hx].
      by rewrite sorted_Permutation in Hsub.
    + apply sublist_length in Hsub.
      by rewrite (Permutation_length (sorted_Permutation nums)) in Hsub.
Qed.

Lemma combos_that_sum_any_input_witness :
  combos_that_sum [2; 1; 2; 3] 3 = combos_that_sum [3; 2; 2; 1] 3
  ∧ combos_that_sum [2; 1; 2; 3] 3 = [[1; 2]; [3]].
Proof.
  split; [| vm_compute; reflexivity].
  apply (proj1 (combos_that_sum_any_input [2; 1; 2; 3] 3)).
  apply (Permutation_trans (l' := [2; 2; 1; 3])).
  - apply perm_skip, perm_swap.
  - apply (Permutation_trans (l' := [2; 2; 3; 1])).
    + do 2 apply perm_skip. apply perm_swap.
    + change ([2; 2; 3; 1] ≡ₚ [3; 2; 2; 1]).
      apply (Permutation_trans (l' := [2; 3; 2; 1])).
      * apply perm_skip, perm_swap.
      * apply perm_swap.
Defined.

(** ** The policies of the demos *)

Lemma min_score_fold (g : Game) (legal : list (list Z)) :
  ∀ bm, ∃ m,
    foldl (Demo.min_score_step g) (Some (bm, Demo.score_after g bm)) legal
    = Some (m, Demo.score_after g m)
    ∧ (m = bm ∨ m ∈ legal)
    ∧ (Demo.score_after g m < Demo.score_after g bm
       ∨ (Demo.score_after g m = Demo.score_after g bm
          ∧ (length m <= length bm)%nat))
    ∧ ∀ m', m' ∈ legal →
        Demo.score_after g m < Demo.score_after g m'
        ∨ (Demo.score_after g m = Demo.score_after g m'
           ∧ (length m <= length m')%nat).
Proof.
  induction legal as [|x legal IH]; intros bm.
  - exists bm. split_and!; [done | by left | lia |].
    intros m' Hm'. by apply elem_of_nil in Hm'.
  - cbn [foldl Demo.min_score_step].
    destruct ((Demo.score_after g x <? Demo.score_after g bm)
              || ((Demo.score_after g x =? Demo.score_after g bm)
                  && (length x <? length bm)%nat)) eqn:Hcmp.
    + destruct (IH x) as (m & Hf & Hin & Hx & Hall). exists m.
      apply orb_true_iff in Hcmp.
      rewrite andb_true_iff, Z.ltb_lt, Z.eqb_eq, Nat.ltb_lt in Hcmp.
      split_and!; [done | | lia |].
      * destruct Hin as [-> | Hin]; right; [left | by right].
      * intros m' Hm'. apply elem_of_cons in Hm' as [-> | Hm']; [lia | auto].
    + destruct (IH bm) as (m & Hf & Hin & Hbm & Hall). exists m.
      apply orb_false_iff in Hcmp as [Hlt Hle].
      rewrite andb_false_iff, Z.eqb_neq, Nat.ltb_ge in Hle.
      rewrite Z.ltb_ge in Hlt.
      split_and!; [done | | done |].
      * destruct Hin as [-> | Hin]; [by left | right; by right].
      * intros m' Hm'. apply elem_of_cons in Hm' as [-> | Hm']; [lia | auto].
Qed.

(** X12. [min_score_policy] answers the empty tuple on an empty list, and
    otherwise a listed move whose score after closing is minimal and which,
    among the moves with that score, has the fewest tiles. *)
Theorem min_score_policy_spec (g : Game) (legal : list (list Z)) :
  (legal = [] → Demo.min_score_policy g legal = Some [])
  ∧ (legal ≠ [] →
     ∃ m, Demo.min_score_policy g legal = Some m ∧ m ∈ legal
          ∧ ∀ m', m' ∈ legal →
              Demo.score_after g m <= Demo.score_after g m'
              ∧ (Demo.score_after g m' = Demo.score_after g m →
                 (length m <= length m')%nat)).
Proof.
  split; [by intros -> |]. intros Hne.
  destruct legal as [|x legal]; [done |].
  unfold Demo.min_score_policy. cbn [is_empty foldl Demo.min_score_step].
  destruct (min_score_fold g legal x) as (m & Hf & Hin & Hx & Hall).
  exists m. rewrite Hf. split_and!; [done | |].
  - destruct Hin as [-> | Hin]; [left | by right].
  - intros m' Hm'. apply elem_of_cons in Hm' as [-> | Hm'].
    + lia.
    + specialize (Hall m' Hm'). lia.
Qed.

Lemma min_score_policy_spec_witness :
  ∃ m, Demo.min_score_policy game9_rolled_5 [[1; 4]; [2; 3]; [5]] = Some m
       ∧ (length m <= length [5]%Z)%nat.
Proof.
  destruct (proj2 (min_score_policy_spec game9_rolled_5 [[1; 4]; [2; 3]; [5]]))
    as (m & Hm & _ & Hall); [discriminate |].
  exists m. split; [exact Hm |].
  apply (Hall [5]); [repeat constructor |].
  vm_compute in Hm. injection Hm as <-. vm_compute. reflexivity.
Defined.

Lemma score_after_listed (g : Game) (mv : list Z) :
  Dict.wf (tiles g) → NoDup mv → mv ⊆ open_tiles g →
  Demo.score_after g mv = score g - Py.sum mv.
Proof.
  intros Hwf Hnd Hsub. unfold Demo.score_after, score.
  change (map fst (filter (λ kv : Z * bool, kv.2 = true)
                     (close_tiles (tiles g) mv)))
    with (open_keys (close_tiles (tiles g) mv)).
  rewrite open_keys_close by done.
  change (open_keys (tiles g)) with (open_tiles g).
  rewrite (sum_filter_split (λ t, t ∉ mv) (open_tiles g)).
  assert (Hp : filter (λ x, ¬ (x ∉ mv)) (open_tiles g) ≡ₚ mv).
  { apply NoDup_Permutation; [| done |].
    - apply NoDup_filter, open_tiles_NoDup, Hwf.
    - intros x. rewrite list_elem_of_filter. split.
      + intros [Hx _]. by destruct (decide (x ∈ mv)).
      + intros Hx. split; [by intros Hq | by apply Hsub]. }
  rewrite (sum_Permutation _ _ Hp). lia.
Qed.

(** X13. Given the engine's own [available_moves] for a roll, as the demos
    call it, [min_score_policy] answers a legal move with the fewest tiles of
    all: every legal move leaves the score minus the roll, so only the tie
    rule decides. *)
Theorem min_score_policy_fewest_tiles (g : Game) (r : Z) :
  Dict.wf (tiles g) → available_moves g r ≠ [] →
  ∃ m, Demo.min_score_policy g (available_moves g r) = Some m
       ∧ m ∈ available_moves g r
       ∧ ∀ m', m' ∈ available_moves g r →
           Demo.score_after g m' = score g - r
           ∧ (length m <= length m')%nat.
Proof.
  intros Hwf Hne.
  assert (∃ m, Demo.min_score_policy g (available_moves g r) = Some m
               ∧ m ∈ available_moves g r
               ∧ ∀ m', m' ∈ available_moves g r →
                   Demo.score_after g m' = Demo.score_after g m →
                   (length m <= length m')%nat) as (m & Hm & Hin & Hall).
  { destruct (available_moves g r) as [|x legal]; [done |].
    unfold Demo.min_score_policy. cbn [is_empty foldl Demo.min_score_step].
    destruct (min_score_fold g legal x) as (m & Hf & Hin & Hx & Hall).
    exists m. rewrite Hf. split_and!; [done | |].
    - destruct Hin as [-> | Hin]; [left | by right].
    - intros m' Hm' Heq. apply elem_of_cons in Hm' as [-> | Hm']; [lia |].
      specialize (Hall m' Hm'). lia. }
  assert (Hscore : ∀ c, c ∈ available_moves g r →
                        Demo.score_after g c = score g - r).
  { intros c Hc.
    apply (combos_that_sum_enumerates _ r (open_tiles_NoDup g Hwf))
      in Hc as (_ & Hs & Hsub & Hsum).
    rewrite score_after_listed, Hsum; try done.
    clear -Hs. induction Hs as [|x l Hs IH Hx]; constructor; [| done].
    intros Hin. rewrite Forall_forall in Hx. specialize (Hx x Hin). lia. }
  exists m. split_and!; try done. intros m' Hm'. split; [auto |].
  apply (Hall m' Hm'). by rewrite !Hscore.
Qed.

Lemma min_score_policy_fewest_tiles_witness :
  Demo.min_score_policy game9_rolled_5 (available_moves game9_rolled_5 5)
  = Some [5].
Proof.
  assert (Hwf : Dict.wf (tiles game9_rolled_5)).
  { unfold Dict.wf. apply (bool_decide_unpack _). vm_compute. exact I. }
  destruct (min_score_policy_fewest_tiles game9_rolled_5 5 Hwf)
    as (m & Hm & _); [vm_compute; discriminate |].
  rewrite Hm. vm_compute in Hm. symmetry. exact Hm.
Defined.

Lemma key_leb_le (a b : nat * Z) :
  Demo.key_leb a b = true ↔
  (a.1 < b.1)%nat ∨ (a.1 = b.1 ∧ a.2 <= b.2).
Proof.
  unfold Demo.key_leb.
  rewrite orb_true_iff, andb_true_iff, Nat.ltb_lt, Nat.eqb_eq, Z.leb_le. done.
Qed.

(** The sort puts a least element first. *)
Lemma sorted_by_key_head (xs : list ((nat * Z) * list Z)) :
  match Demo.sorted_by_key xs with
  | [] => xs = []
  | y :: _ => y ∈ xs ∧ ∀ x, x ∈ xs → Demo.key_leb y.1 x.1 = true
  end.
Proof.
  induction xs as [|x xs IH]; [done |].
  cbn [Demo.sorted_by_key foldr].
  change (foldr Demo.insert_by_key [] xs) with (Demo.sorted_by_key xs).
  destruct (Demo.sorted_by_key xs) as [|y ys].
  - subst xs. cbn [Demo.insert_by_key]. split; [left |].
    intros z Hz. apply list_elem_of_singleton in Hz as ->.
    apply key_leb_le. lia.
  - destruct IH as [Hy Hmin]. cbn [Demo.insert_by_key].
    destruct (Demo.key_leb x.1 y.1) eqn:Hxy.
    + split; [left |]. intros z Hz.
      apply elem_of_cons in Hz as [-> | Hz]; [apply key_leb_le; lia |].
      specialize (Hmin z Hz). apply key_leb_le in Hxy, Hmin. apply key_leb_le. lia.
    + split; [by right |]. intros z Hz.
      apply elem_of_cons in Hz as [-> | Hz]; [| auto].
      apply key_leb_le.
      assert (¬ ((x.1.1 < y.1.1)%nat ∨ (x.1.1 = y.1.1 ∧ x.1.2 <= y.1.2))) as Hn.
      { rewrite <- key_leb_le. by rewrite Hxy. }
      lia.
Qed.

Lemma keyed_moves (legal : list (list Z)) :
  [] ∉ legal →
  mapM (λ c, k ← Demo.greedy_key c; Some (k, c)) legal
  = Some (map (λ c, ((length c, - default 0 (Demo.max_of c)), c)) legal).
Proof.
  induction legal as [|c legal IH]; intros Hne; [done |].
  apply not_elem_of_cons in Hne as [Hc Hne].
  apply mapM_Some_2. constructor.
  - destruct c; [done | done].
  - apply mapM_Some_1, IH, Hne.
Qed.

(** X14. [greedy_policy] answers the empty tuple on an empty list; on a list
    of non-empty moves it answers a listed move with the fewest tiles and,
    among those, with the largest top tile; a list holding an empty move
    makes [max] raise. *)
Theorem greedy_policy_spec (legal : list (list Z)) :
  (legal = [] → Demo.greedy_policy legal = Returned [])
  ∧ (legal ≠ [] → [] ∈ legal → Demo.greedy_policy legal = Raised)
  ∧ (legal ≠ [] → [] ∉ legal →
     ∃ m top, Demo.greedy_policy legal = Returned m ∧ m ∈ legal
              ∧ Demo.max_of m = Some top
              ∧ ∀ m' top', m' ∈ legal → Demo.max_of m' = Some top' →
                  (length m <= length m')%nat
                  ∧ (length m' = length m → top' <= top)).
Proof.
  split_and!.
  - by intros ->.
  - intros Hne Hin. unfold Demo.greedy_policy.
    destruct legal as [|c legal]; [done |]. cbn [is_empty].
    assert (mapM (λ c, k ← Demo.greedy_key c; Some (k, c)) (c :: legal) = None)
      as ->; [| done].
    apply mapM_None_2, Exists_exists. by exists [].
  - intros Hne Hnil. unfold Demo.greedy_policy.
    destruct legal as [|c0 legal0] eqn:Hlegal; [done |]. cbn [is_empty].
    rewrite <- Hlegal in *. rewrite (keyed_moves legal Hnil).
    pose proof (sorted_by_key_head
                  (map (λ c, ((length c, - default 0 (Demo.max_of c)), c)) legal))
      as Hhead.
    destruct (Demo.sorted_by_key _) as [|[k m] rest].
    { by rewrite Hlegal in Hhead. }
    destruct Hhead as [Hin Hmin].
    apply list_elem_of_fmap in Hin as (c & [= -> ->] & Hc).
    assert (Hmax : ∀ c', c' ∈ legal → ∃ t, Demo.max_of c' = Some t).
    { intros [|x c'] Hc'; [done | by eexists]. }
    destruct (Hmax c Hc) as [top Htop]. exists c, top.
    split_and!; try done. intros m' top' Hm' Htop'.
    specialize (Hmin ((length m', - default 0 (Demo.max_of m')), m')).
    rewrite key_leb_le in Hmin. simpl in Hmin. rewrite Htop, Htop' in Hmin.
    simpl in Hmin.
    assert (Hin' : ((length m', - top'), m')
                   ∈ map (λ c, ((length c, - default 0 (Demo.max_of c)), c)) legal).
    { apply list_elem_of_fmap. exists m'. by rewrite Htop'. }
    specialize (Hmin Hin'). lia.
Qed.

Lemma greedy_policy_spec_witness :
  ∃ m, Demo.greedy_policy [[1; 2; 6]; [1; 8]; [2; 7]; [4; 5]] = Returned m
       ∧ (length m <= length [2; 7]%Z)%nat.
Proof.
  destruct (proj2 (proj2 (greedy_policy_spec [[1; 2; 6]; [1; 8]; [2; 7]; [4; 5]])))
    as (m & top & Hm & _ & _ & Hall).
  - discriminate.
  - intros H. repeat (apply elem_of_cons in H as [H | H]; [discriminate H |]).
    by apply elem_of_nil in H.
  - exists m. split; [exact Hm |].
    apply (Hall [2; 7] 7); [repeat constructor | reflexivity].
Defined.

Example greedy_policy_example :
  Demo.greedy_policy [[1; 2; 6]; [1; 8]; [2; 7]; [4; 5]] = Returned [1; 8]
  ∧ Demo.greedy_policy (available_moves game9 9) = Returned [9].
Proof. vm_compute. auto. Qed.

(** ** The rows of the run file *)

Lemma move_accepts_enumerated (g : Game) (r : Z) (mv : list Z) :
  Dict.wf (tiles g) → last_roll g = Some r → over g = is_empty (available_moves g r) →
  mv ∈ compute_legal_moves g r →
  ∃ g', move g mv = (true, g').
Proof.
  intros Hwf Hr Hover Hmv.
  assert (Hin : Py.sorted mv ∈ available_moves g r).
  { pose proof (elem_of_compute_legal_moves g r mv Hmv) as (Hlen & Hsum & Hsub).
    apply sorted_in_available; try done.
    - intros ->. simpl in Hlen. lia.
    - unfold compute_legal_moves in Hmv. apply elem_of_app in Hmv as [H | H].
      + apply list_elem_of_fmap in H as (t & -> & _). apply NoDup_singleton.
      + apply elem_of_pair_moves in H as (a & b & -> & _ & Hs).
        eapply sublist_NoDup; [apply (open_tiles_NoDup g Hwf) | exact Hs]. }
  assert (Hover' : over g = false).
  { rewrite Hover. by destruct (available_moves g r); [apply elem_of_nil in Hin |]. }
  unfold move. rewrite Hover', Hr, bool_decide_eq_true_2 by done. simpl.
  match goal with |- context [is_empty ?o] => destruct (is_empty o) end; eauto.
Qed.

Lemma move_score (g : Game) (chosen : list Z) (g' : Game) (r : Z) :
  move g chosen = (true, g') → Dict.wf (tiles g) → last_roll g = Some r →
  score g' = score g - r.
Proof.
  intros Hm Hwf Hr.
  destruct (accepted_move g chosen g' Hm Hwf) as (r' & Hr' & _ & Hnd & Hsub & Hsum).
  assert (r' = r) as -> by congruence.
  apply move_success_inv in Hm as (_ & _ & _ & _ & Ht & _).
  rewrite <- Hsum, <- score_after_listed by done.
  unfold score, open_tiles, Demo.score_after. rewrite Ht.
  f_equal.
  change (open_keys (close_tiles (tiles g) (Py.sorted chosen))
          = open_keys (close_tiles (tiles g) chosen)).
  rewrite !open_keys_close by done. apply list_filter_iff.
  intros x. by rewrite sorted_Permutation.
Qed.

Lemma pair_moves_complete (opens : list Z) (r a b : Z) :
  [a; b] `sublist_of` opens → a + b = r → [a; b] ∈ pair_moves opens r.
Proof.
  induction opens as [|x opens IH]; simpl; intros Hsub Hsum.
  - by apply sublist_nil_r in Hsub.
  - apply elem_of_app.
    apply sublist_cons_r in Hsub as [Hs | (l' & Heq & Hs)].
    2: simplify_eq.
    + right. by apply IH.
    + left. apply list_elem_of_fmap. exists b. split; [done |].
      apply list_elem_of_filter. split; [done |].
      apply (sublist_subseteq _ _ Hs), list_elem_of_singleton. done.
Qed.

Lemma compute_legal_moves_nil (g : Game) (r : Z) :
  compute_legal_moves g r = []
  ↔ (∀ t, t ∈ open_tiles g → t ≠ r)
    ∧ (∀ a b, [a; b] `sublist_of` open_tiles g → a + b ≠ r).
Proof.
  split.
  - intros Hnil. split.
    + intros t Ht ->.
      assert (H : [r] ∈ compute_legal_moves g r); [| rewrite Hnil in H; by apply elem_of_nil in H].
      unfold compute_legal_moves. apply elem_of_app. left.
      apply list_elem_of_fmap. exists r. split; [done |].
      by apply list_elem_of_filter.
    + intros a b Hsub Hsum.
      assert (H : [a; b] ∈ compute_legal_moves g r); [| rewrite Hnil in H; by apply elem_of_nil in H].
      unfold compute_legal_moves. apply elem_of_app. right.
      by apply pair_moves_complete.
  - intros [Hone Htwo].
    destruct (compute_legal_moves g r) as [|m ms] eqn:Hl; [done |].
    assert (Hm : m ∈ compute_legal_moves g r) by (rewrite Hl; left).
    unfold compute_legal_moves in Hm. apply elem_of_app in Hm as [Hm | Hm].
    + apply list_elem_of_fmap in Hm as (t & _ & Ht).
      apply list_elem_of_filter in Ht as [-> Ht]. by destruct (Hone _ Ht).
    + apply elem_of_pair_moves in Hm as (a & b & _ & Hsum & Hsub).
      by destruct (Htwo a b Hsub).
Qed.

(** X15. A row written by the collection loop on a game that is not over,
    with [r] the roll and [legal] the list [compute_legal_moves] returns on
    the rolled game. The row carries the episode, the step, the roll and the
    board before the move. [legal] is empty exactly when no open tile equals
    the roll and no two open tiles add up to it; the row is then terminal,
    the loop stops, the game is the rolled game, the move columns are empty,
    the board is repeated, and the score before is reported as both remaining
    sum and final score. When [legal] is not empty and [mv] is the move drawn
    from it, the row is not terminal, the loop goes on, the engine accepts
    [mv] and the game after the row is the game after that move; the row
    lists [legal] and [mv], the board after the move, the final score is the
    score before minus the roll, and the column [remaining_sum_after],
    computed on the board after the move, is the score before minus twice
    the roll. *)
Theorem collect_row_columns (ep step : Z) (g : Game) (d : Dice) (n : nat)
    (row : RunRow) (g' : Game) (go : bool) :
  over g = false → Dict.wf (tiles g) →
  collect_row ep step g d n = (row, g', go) →
  let r := (roll g None d).1 in
  let g1 := (roll g None d).2 in
  let legal := compute_legal_moves g1 r in
  row_episode row = ep ∧ row_step row = step ∧ row_roll row = r
  ∧ row_tiles_before row = tiles_to_key g
  ∧ (legal = [] ↔ (∀ t, t ∈ open_tiles g → t ≠ r)
                  ∧ (∀ a b, [a; b] `sublist_of` open_tiles g → a + b ≠ r))
  ∧ (legal = [] →
       row_terminal row = true ∧ go = false ∧ g' = g1
       ∧ row_legal_moves row = EmptyString
       ∧ row_chosen_move row = EmptyString
       ∧ row_tiles_after row = tiles_to_key g
       ∧ row_remaining_sum_after row = score g
       ∧ row_final_score row = score g)
  ∧ (∀ mv, choice legal n = Some mv →
       row_terminal row = false ∧ go = true
       ∧ move g1 mv = (true, g')
       ∧ row_legal_moves row = join ";" (map move_str legal)
       ∧ row_chosen_move row = move_str mv
       ∧ row_tiles_after row = tiles_to_key g'
       ∧ row_final_score row = score g'
       ∧ score g' = score g - r
       ∧ row_remaining_sum_after row = score g - 2 * r).
Proof.
  intros Hover Hwf. unfold collect_row.
  destruct (roll_not_over g None d Hover) as (Hr & Hl & Ht & Hmax & _ & Ho).
  destruct (roll g None d) as [r g1]. simpl in Hr, Hl, Ht, Hmax, Ho. subst r.
  set (r := if can_use_single_die g then die1 d else die1 d + die2 d) in *.
  cbn zeta. simpl fst. simpl snd.
  assert (Hopen : open_tiles g1 = open_tiles g) by (unfold open_tiles; by rewrite Ht).
  assert (Hscore : score g1 = score g) by (unfold score; by rewrite Hopen).
  assert (Hkey : tiles_to_key g1 = tiles_to_key g).
  { unfold tiles_to_key. by rewrite Ht, Hmax. }
  assert (Hrem : remaining_sum_after g1 [] = score g).
  { unfold remaining_sum_after. fold (score g1). simpl. lia. }
  assert (Hnil : compute_legal_moves g1 r = []
                 ↔ (∀ t, t ∈ open_tiles g → t ≠ r)
                   ∧ (∀ a b, [a; b] `sublist_of` open_tiles g → a + b ≠ r)).
  { rewrite <- Hopen. apply compute_legal_moves_nil. }
  destruct (is_empty (compute_legal_moves g1 r)) eqn:He.
  { intros [= <- <- <-]. simpl. rewrite Hkey.
    split_and!; try done.
    intros mv Hc. destruct (compute_legal_moves g1 r); done. }
  assert (Hlegal : compute_legal_moves g1 r ≠ []).
  { intros Heq. by rewrite Heq in He. }
  destruct (choice (compute_legal_moves g1 r) n) as [mv|] eqn:Hc.
  2: { intros [= <- <- <-]. simpl. rewrite Hkey. split_and!; done. }
  intros [= <- <- <-]. simpl.
  pose proof (elem_of_choice _ _ _ Hc) as Hin.
  assert (Hwf1 : Dict.wf (tiles g1)) by (by rewrite Ht).
  assert (Ho1 : over g1 = is_empty (available_moves g1 r)).
  { rewrite Ho. unfold available_moves. by rewrite Hopen. }
  destruct (move_accepts_enumerated g1 r mv Hwf1 Hl Ho1 Hin) as [g2 Hm].
  pose proof (move_score g1 mv g2 r Hm Hwf1 Hl) as Hs.
  pose proof (elem_of_compute_legal_moves g1 r mv Hin) as (_ & Hsum & _).
  rewrite Hm. simpl.
  split_and!; try done.
  intros mv' [= <-]. split_and!; try done.
  - lia.
  - unfold remaining_sum_after. fold (score g2). lia.
Qed.

Lemma collect_row_columns_witness :
  let res := collect_row 0 0 game9 (mkDice 4 5) 1 in
  let g1 := (roll game9 None (mkDice 4 5)).2 in
  row_terminal res.1.1 = false ∧ res.2 = true
  ∧ move g1 [1; 8] = (true, res.1.2)
  ∧ row_remaining_sum_after res.1.1 = score game9 - 2 * 9.
Proof.
  intros res g1.
  assert (Hwf : Dict.wf (tiles game9)).
  { unfold Dict.wf. apply (bool_decide_unpack _). vm_compute. exact I. }
  destruct res as [[row g'] go] eqn:Hres.
  pose proof (collect_row_columns 0 0 game9 (mkDice 4 5) 1 row g' go
                eq_refl Hwf Hres) as (_ & _ & _ & _ & _ & _ & H).
  destruct (H [1; 8] eq_refl) as (Hterm & Hgo & Hmove & _ & _ & _ & _ & _ & Hrem).
  split_and!; done.
Defined.

Example collect_row_example :
  let row := (collect_row 0 0 game9 (mkDice 4 5) 1).1.1 in
  row_roll row = 9 ∧ row_tiles_before row = "123456789"%string
  ∧ row_legal_moves row = "9;1+8;2+7;3+6;4+5"%string
  ∧ row_chosen_move row = "1+8"%string
  ∧ row_tiles_after row = "X234567X9"%string
  ∧ row_remaining_sum_after row = 27 ∧ row_final_score row = 36.
Proof. vm_compute. repeat split. Qed.

(** ** The summary frame as a whole *)

Module SummaryFacts.
Import Analyze AnalyzeFacts.
















End SummaryFacts.

(** ** The board signature *)

Lemma pretty_digit (i : Z) :
  1 <= i <= 9 → ∃ c, pretty i = String c EmptyString ∧ c ≠ "X"%char.
Proof.
  intros Hi.
  assert (i = 1 ∨ i = 2 ∨ i = 3 ∨ i = 4 ∨ i = 5 ∨ i = 6 ∨ i = 7 ∨ i = 8 ∨ i = 9)
    as Hcases by lia.
  repeat destruct Hcases as [-> | Hcases]; try subst i;
    eexists; (split; [vm_compute; reflexivity | discriminate]).
Qed.

(** The character a tile contributes to the signature. *)
Lemma cell_char (g : Game) (i : Z) :
  1 <= i <= 9 →
  ∃ c, (if Dict.get_or_false (tiles g) i then pretty i else "X"%string)
       = String c EmptyString
       ∧ (c = "X"%char ↔ Dict.get_or_false (tiles g) i = false).
Proof.
  intros Hi. destruct (Dict.get_or_false (tiles g) i).
  - destruct (pretty_digit i Hi) as (c & -> & Hc). exists c. split; [done |].
    split; [done | discriminate].
  - exists "X"%char. done.
Qed.

Lemma concat_cells (ids : list Z) (f : Z → string) :
  (∀ i, i ∈ ids → ∃ c, f i = String c EmptyString) →
  foldr String.append EmptyString (map f ids)
  = String.string_of_list_ascii
      (map (λ i, match f i with String c _ => c | EmptyString => "X"%char end) ids).
Proof.
  induction ids as [|i ids IH]; intros H; [done |].
  cbn [map foldr String.string_of_list_ascii]. rewrite IH.
  - destruct (H i) as [c ->]; [left | done].
  - intros j Hj. apply H. by right.
Qed.

Lemma tiles_to_key_chars (g : Game) :
  tiles_max g <= 9 →
  tiles_to_key g
  = String.string_of_list_ascii
      (map (λ i, match (if Dict.get_or_false (tiles g) i
                        then pretty i else "X"%string) with
                 | String c _ => c
                 | EmptyString => "X"%char
                 end) (tile_ids (tiles_max g))).
Proof.
  intros Hmax. unfold tiles_to_key.
  apply (concat_cells _
           (λ i, if Dict.get_or_false (tiles g) i then pretty i else "X"%string)).
  intros i Hi. apply elem_of_tile_ids in Hi.
  destruct (cell_char g i) as (c & Hc & _); [lia | eauto].
Qed.

Lemma length_string_of_list (l : list ascii) :
  String.length (String.string_of_list_ascii l) = length l.
Proof. induction l as [|c l IH]; simpl; [done | by rewrite IH]. Qed.

Lemma map_eq_pointwise {A B} (f h : A → B) (l : list A) :
  map f l = map h l ↔ ∀ x, x ∈ l → f x = h x.
Proof.
  induction l as [|x l IH]; simpl.
  - split; [intros _ y Hy; by apply elem_of_nil in Hy | done].
  - split.
    + intros [= Hx Hl] y Hy. apply elem_of_cons in Hy as [-> | Hy]; [done |].
      by apply IH.
    + intros H. f_equal; [apply H; left | apply IH; intros y Hy; apply H; by right].
Qed.

(** X18. On a board of at most 9 tiles the signature has one character per
    tile, and two games have the same signature exactly when they have the
    same number of tiles and the same tiles open. *)
Theorem tiles_to_key_identifies_board (g1 g2 : Game) :
  tiles_max g1 <= 9 → tiles_max g2 <= 9 →
  String.length (tiles_to_key g1) = Z.to_nat (tiles_max g1)
  ∧ (tiles_to_key g1 = tiles_to_key g2 ↔
     Z.to_nat (tiles_max g1) = Z.to_nat (tiles_max g2)
     ∧ ∀ i, 1 <= i <= tiles_max g1 →
         Dict.get_or_false (tiles g1) i = Dict.get_or_false (tiles g2) i).
Proof.
  intros H1 H2.
  assert (Hlen : ∀ g, tiles_max g <= 9 →
                      String.length (tiles_to_key g) = Z.to_nat (tiles_max g)).
  { intros g Hg. rewrite tiles_to_key_chars by done.
    rewrite length_string_of_list, length_map. unfold tile_ids.
    by rewrite length_map, length_seq. }
  split; [by apply Hlen |]. split.
  - intros Heq.
    assert (Hn : Z.to_nat (tiles_max g1) = Z.to_nat (tiles_max g2)).
    { rewrite <- !Hlen by done. by rewrite Heq. }
    split; [done |]. intros i Hi.
    rewrite !tiles_to_key_chars in Heq by done.
    apply (f_equal String.list_ascii_of_string) in Heq.
    rewrite !String.list_ascii_of_string_of_list_ascii in Heq.
    unfold tile_ids in Heq. rewrite <- Hn in Heq.
    rewrite map_eq_pointwise in Heq.
    assert (Hin : i ∈ map Z.of_nat (seq 1 (Z.to_nat (tiles_max g1))))
      by (by apply elem_of_tile_ids).
    specialize (Heq i Hin).
    destruct (cell_char g1 i) as (c1 & Hc1 & Hx1); [lia |].
    destruct (cell_char g2 i) as (c2 & Hc2 & Hx2); [lia |].
    rewrite Hc1, Hc2 in Heq. subst c2.
    destruct (Dict.get_or_false (tiles g1) i), (Dict.get_or_false (tiles g2) i);
      try done.
    + by apply Hx1, Hx2.
    + symmetry. by apply Hx2, Hx1.
  - intros [Hn Hsame]. unfold tiles_to_key, tile_ids. rewrite <- Hn.
    f_equal. apply map_eq_pointwise. intros i Hi.
    apply elem_of_tile_ids in Hi. by rewrite Hsame.
Qed.

Lemma tiles_to_key_identifies_board_witness :
  String.length (tiles_to_key game9_low) = 9%nat
  ∧ tiles_to_key game9 ≠ tiles_to_key game9_low.
Proof.
  assert (H9 : tiles_max game9 <= 9) by (vm_compute; discriminate).
  assert (Hl : tiles_max game9_low <= 9) by (vm_compute; discriminate).
  split.
  - exact (proj1 (tiles_to_key_identifies_board game9_low game9 Hl H9)).
  - intros Heq.
    apply (proj2 (tiles_to_key_identifies_board game9 game9_low H9 Hl)) in Heq
      as [_ Hsame].
    specialize (Hsame 7). vm_compute in Hsame.
    assert (true = false) as Habs by (apply Hsame; split; discriminate).
    discriminate Habs.
Defined.

(** ** Writing a move and reading it back *)

Lemma split_on_plain (sep : ascii) (w : string) :
  sep ∉ String.list_ascii_of_string w → split_on sep w = [w].
Proof.
  induction w as [|c w IH]; intros Hw; [done |].
  cbn [String.list_ascii_of_string] in Hw.
  apply not_elem_of_cons in Hw as [Hc Hw]. cbn [split_on].
  destruct (Ascii.eqb_spec c sep) as [-> | _]; [done |].
  by rewrite IH.
Qed.

Lemma split_on_piece (sep : ascii) (w rest : string) :
  sep ∉ String.list_ascii_of_string w →
  split_on sep (w +:+ String sep rest) = w :: split_on sep rest.
Proof.
  induction w as [|c w IH]; intros Hw.
  - change ("" +:+ String sep rest)%string with (String sep rest).
    cbn [split_on]. by rewrite Ascii.eqb_refl.
  - cbn [String.list_ascii_of_string] in Hw.
    apply not_elem_of_cons in Hw as [Hc Hw].
    change (String c w +:+ String sep rest) with (String c (w +:+ String sep rest)).
    cbn [split_on]. destruct (Ascii.eqb_spec c sep) as [-> | _]; [done |].
    by rewrite IH.
Qed.

Lemma split_join (sep : ascii) (ws : list string) :
  ws ≠ [] → Forall (λ w, sep ∉ String.list_ascii_of_string w) ws →
  split_on sep (join (String sep EmptyString) ws) = ws.
Proof.
  induction ws as [|w ws IH]; intros Hne Hall; [done |].
  apply Forall_cons in Hall as [Hw Hall].
  destruct ws as [|w' ws].
  - cbn [join]. by apply split_on_plain.
  - change (join (String sep EmptyString) (w :: w' :: ws))
      with (w +:+ String sep (join (String sep EmptyString) (w' :: ws))).
    rewrite split_on_piece by done. f_equal. by apply IH.
Qed.

Lemma pretty_N_go_no_plus (x : N) :
  ∀ s, "+"%char ∉ String.list_ascii_of_string s →
       "+"%char ∉ String.list_ascii_of_string (pretty_N_go x s).
Proof.
  induction (N.lt_wf_0 x) as [x _ IH]; intros s Hs.
  assert (x = 0 ∨ 0 < x)%N as [-> | Hpos] by lia.
  - by rewrite pretty_N_go_0.
  - rewrite pretty_N_go_step by done. apply IH.
    + by apply N.div_lt.
    + cbn [String.list_ascii_of_string]. apply not_elem_of_cons. split; [| done].
      unfold pretty_N_char. by repeat case_match.
Qed.

Lemma pretty_N_no_plus (x : N) :
  "+"%char ∉ String.list_ascii_of_string (pretty x).
Proof.
  unfold pretty, pretty_N. destruct (decide (x = 0%N)).
  - cbn. rewrite not_elem_of_cons. split; [done | apply not_elem_of_nil].
  - apply pretty_N_go_no_plus. cbn. apply not_elem_of_nil.
Qed.

Lemma pretty_Z_no_plus (z : Z) :
  "+"%char ∉ String.list_ascii_of_string (pretty z).
Proof.
  destruct z as [|p|p].
  - cbn. rewrite not_elem_of_cons. split; [done | apply not_elem_of_nil].
  - apply (pretty_N_no_plus (N.pos p)).
  - change (pretty (Z.neg p)) with (String "-" (pretty (N.pos p))).
    cbn [String.list_ascii_of_string]. apply not_elem_of_cons.
    split; [done | apply pretty_N_no_plus].
Qed.

(** X19. A non-empty move written as the run file writes it,
    ["+".join(map(str, mv))], is read back as the same move by the table
    policy's [list(map(int, hit.split("+")))], given that [int] reads back
    what [str] printed for its tiles. *)
Theorem parse_move_of_move_str (py_int : string → option Z) (mv : list Z) :
  mv ≠ [] → (∀ z, z ∈ mv → py_int (pretty z) = Some z) →
  split_on "+" (move_str mv) = map pretty mv
  ∧ Policies.parse_move py_int (move_str mv) = Some mv.
Proof.
  intros Hne Hint.
  assert (Hsplit : split_on "+" (move_str mv) = map pretty mv).
  { unfold move_str. apply split_join.
    - by destruct mv.
    - apply Forall_forall. intros w Hw.
      apply list_elem_of_fmap in Hw as (z & -> & _). apply pretty_Z_no_plus. }
  split; [done |]. unfold Policies.parse_move. rewrite Hsplit.
  apply mapM_Some_2. clear Hne Hsplit.
  induction mv as [|z mv IH]; [constructor |].
  cbn [map]. constructor.
  - apply Hint. left.
  - apply IH. intros z' Hz'. apply Hint. by right.
Qed.

Lemma parse_move_of_move_str_witness :
  Policies.parse_move
    (λ s, if String.eqb s "8" then Some 8
          else if String.eqb s "3" then Some 3 else None)
    (move_str [8; 3]) = Some [8; 3].
Proof.
  apply parse_move_of_move_str; [discriminate |].
  intros z Hz. rewrite !elem_of_cons, elem_of_nil in Hz.
  destruct Hz as [-> | [-> | []]]; vm_compute; reflexivity.
Defined.

(** ** The policy module against the engine *)

Lemma roll_pending (g : Game) (d : Dice) :
  over g = false → Dict.wf (tiles g) →
  Dict.wf (tiles (roll g None d).2)
  ∧ last_roll (roll g None d).2 = Some (roll g None d).1
  ∧ over (roll g None d).2
    = is_empty (available_moves (roll g None d).2 (roll g None d).1).
Proof.
  intros Hover Hwf.
  destruct (roll_not_over g None d Hover) as (Hr & Hl & Ht & _ & _ & Ho).
  rewrite Ht, Hl, Hr, Ho. unfold available_moves, open_tiles. by rewrite Ht.
Qed.

Lemma enumerated_keeps_alive (g : Game) (r : Z) (mv : list Z) :
  Dict.wf (tiles g) → over g = is_empty (available_moves g r) →
  last_roll g = Some r → mv ∈ compute_legal_moves g r → over g = false.
Proof.
  intros Hwf Ho Hl Hmv.
  destruct (move_accepts_enumerated g r mv Hwf Hl Ho Hmv) as [g' Hm].
  by apply move_success_inv in Hm as [? _].
Qed.

Lemma greedy_move_accepted (g : Game) (d : Dice) (mv : list Z) (g1 : Game) :
  over g = false → Dict.wf (tiles g) →
  Policies.greedy_move g d = (Some mv, g1) → ∃ g2, move g1 mv = (true, g2).
Proof.
  intros Hover Hwf. unfold Policies.greedy_move.
  destruct (roll_pending g d Hover Hwf) as (Hwf1 & Hl & Ho).
  destruct (roll g None d) as [r g']. simpl in *.
  destruct (is_empty (compute_legal_moves g' r)); intros [= Hc <-].
  apply min_by_elem in Hc. by apply (move_accepts_enumerated g' r).
Qed.

(** X20. On a game that is not over, every move answered by [random_move],
    [greedy_move], [human_move] or the table policy is accepted by the
    engine's [move] on the game the policy leaves. *)
Theorem policy_module_moves_accepted (g : Game) :
  over g = false → Dict.wf (tiles g) →
  (∀ d n mv g1, Policies.random_move g d n = (Some mv, g1) →
     ∃ g2, move g1 mv = (true, g2))
  ∧ (∀ d mv g1, Policies.greedy_move g d = (Some mv, g1) →
     ∃ g2, move g1 mv = (true, g2))
  ∧ (∀ d d' mv g1, Policies.human_move g d d' = (Some mv, g1) →
     ∃ g2, move g1 mv = (true, g2))
  ∧ (∀ table py_int d mv g1,
       Policies.pick_move table py_int g d = (Returned (Some mv), g1) →
       ∃ g2, move g1 mv = (true, g2)).
Proof.
  intros Hover Hwf. split_and!.
  - intros d n mv g1. unfold Policies.random_move.
    destruct (roll_pending g d Hover Hwf) as (Hwf1 & Hl & Ho).
    destruct (roll g None d) as [r g']. simpl in *.
    destruct (is_empty (compute_legal_moves g' r)); intros [= Hc <-].
    apply elem_of_choice in Hc. by apply (move_accepts_enumerated g' r).
  - intros d mv g1. by apply greedy_move_accepted.
  - intros d d' mv g1. unfold Policies.human_move.
    destruct (roll_pending g d Hover Hwf) as (Hwf1 & Hl & Ho).
    destruct (roll g None d) as [r g']. simpl in *.
    destruct (compute_legal_moves g' r) as [|m ms] eqn:Hlegal; [done |].
    cbn [is_empty].
    destruct (is_empty (multi_tile (m :: ms))) eqn:He; cbn [negb].
    + apply greedy_move_accepted; [| done].
      apply (enumerated_keeps_alive g' r m); try done. rewrite Hlegal. left.
    + intros [= Hc <-]. apply min_by_elem, elem_of_multi_tile in Hc.
      apply (move_accepts_enumerated g' r); try done. by rewrite Hlegal.
  - intros table py_int d mv g1. unfold Policies.pick_move.
    destruct (roll_pending g d Hover Hwf) as (Hwf1 & Hl & Ho).
    destruct (roll g None d) as [r g']. simpl in *.
    destruct (is_empty (compute_legal_moves g' r)) eqn:He; [done |].
    assert (Hfb : ∀ g1,
              (Returned (Py.min_by (remaining_sum_after g')
                           (compute_legal_moves g' r)), g')
              = (Returned (Some mv), g1) → ∃ g2, move g1 mv = (true, g2)).
    { intros g0 [= Hc <-]. apply min_by_elem in Hc.
      by apply (move_accepts_enumerated g' r). }
    destruct (table !! _) as [hit|]; [| apply Hfb].
    destruct (negb _); [| apply Hfb].
    destruct (Policies.parse_move py_int hit) as [want|]; [| done].
    case_bool_decide as Hin; [| apply Hfb].
    intros [= <- <-]. by apply (move_accepts_enumerated g' r).
Qed.

Lemma policy_module_moves_accepted_witness :
  ∃ g2, move game9_rolled_5 [5] = (true, g2).
Proof.
  assert (Hwf : Dict.wf (tiles game9)).
  { unfold Dict.wf. apply (bool_decide_unpack _). vm_compute. exact I. }
  apply (proj1 (proj2 (policy_module_moves_accepted game9 eq_refl Hwf))
           (mkDice 2 3)).
  vm_compute. reflexivity.
Defined.

(** X21. The table policy and the greedy policy of the module: whenever the
    table has no entry for the position, an empty entry, or an entry that
    parses to a move that is not listed, [pick_move] answers what
    [greedy_move] answers; an entry that parses to a listed move is
    answered as it is; an entry that [int] rejects raises, but only when
    some move is listed. *)
Theorem pick_move_falls_back_to_greedy
    (table : gmap string string) (py_int : string → option Z)
    (g : Game) (d : Dice) :
  let r := (roll g None d).1 in
  let g1 := (roll g None d).2 in
  let legal := compute_legal_moves g1 r in
  let entry := table !! (tiles_to_key g1 +:+ "|" +:+ pretty r)%string in
  (legal = [] →
   Policies.pick_move table py_int g d = (Returned None, g1))
  ∧ (entry = None ∨ entry = Some EmptyString
     ∨ (∃ hit want, entry = Some hit ∧ Policies.parse_move py_int hit = Some want
                    ∧ want ∉ legal) →
     Policies.pick_move table py_int g d
     = (Returned (Policies.greedy_move g d).1, (Policies.greedy_move g d).2))
  ∧ (∀ hit want, entry = Some hit → hit ≠ EmptyString →
       Policies.parse_move py_int hit = Some want → want ∈ legal →
       Policies.pick_move table py_int g d = (Returned (Some want), g1))
  ∧ (∀ hit, legal ≠ [] → entry = Some hit → hit ≠ EmptyString →
       Policies.parse_move py_int hit = None →
       Policies.pick_move table py_int g d = (Raised, g1)).
Proof.
  intros r g1 legal entry. subst r g1 legal entry.
  unfold Policies.pick_move, Policies.greedy_move.
  destruct (roll g None d) as [r g1]. simpl.
  assert (Hnonempty : ∀ hit : string, hit ≠ EmptyString →
                        negb (String.eqb hit EmptyString) = true).
  { intros hit Hne. destruct (String.eqb_spec hit EmptyString); done. }
  split_and!.
  - by intros ->.
  - intros Hcase. destruct (compute_legal_moves g1 r) as [|m ms] eqn:Hl; [done |].
    cbn [is_empty]. destruct Hcase as [-> | [-> | (hit & want & -> & Hp & Hnot)]].
    + done.
    + done.
    + destruct (negb _); [| done]. rewrite Hp.
      by rewrite bool_decide_eq_false_2.
  - intros hit want -> Hne Hp Hin.
    destruct (compute_legal_moves g1 r) as [|m ms] eqn:Hl;
      [by apply elem_of_nil in Hin |].
    cbn [is_empty]. rewrite (Hnonempty hit Hne), Hp.
    by rewrite bool_decide_eq_true_2.
  - intros hit Hl -> Hne Hp.
    destruct (compute_legal_moves g1 r) as [|m ms]; [done |].
    cbn [is_empty]. by rewrite (Hnonempty hit Hne), Hp.
Qed.

Lemma pick_move_falls_back_to_greedy_witness :
  Policies.pick_move {[ "123456789|5"%string := "9"%string ]}
    (λ s, if String.eqb s "9" then Some 9 else None) game9 (mkDice 2 3)
  = (Returned (Some [5]), game9_rolled_5).
Proof.
  destruct (pick_move_falls_back_to_greedy
              {[ "123456789|5"%string := "9"%string ]}
              (λ s, if String.eqb s "9" then Some 9 else None)
              game9 (mkDice 2 3)) as (_ & H & _).
  rewrite H; [vm_compute; reflexivity |].
  right. right. exists "9"%string, [9]. split_and!.
  - vm_compute. reflexivity.
  - vm_compute. reflexivity.
  - vm_compute. intros Hin.
    repeat (apply elem_of_cons in Hin as [Hin | Hin]; [discriminate Hin |]).
    by apply elem_of_nil in Hin.
Defined.

(** The collection loop stops on a roll that only a three-tile move can
    answer, although the engine does not end the game there. *)
Example collect_row_stops_early :
  let g := {| tiles_max := 9; single_die_rule := true;
              tiles := map (λ i, (i, bool_decide (i <= 3))) (tile_ids 9);
              over := false; last_roll := None |} in
  available_moves g 6 = [[1; 2; 3]]
  ∧ row_terminal (collect_row 0 0 g (mkDice 6 1) 0).1.1 = true
  ∧ over (collect_row 0 0 g (mkDice 6 1) 0).1.2 = false.
Proof. vm_compute. auto. Qed.

Lemma calls_never_reopen_witness :
  open_tiles (calls game9 close_7_8_9).2 `sublist_of` open_tiles game9
  ∧ board (calls game9 close_7_8_9).2.
Proof.
  destruct (calls_never_reopen game9 close_7_8_9) as (Hs & _ & _ & _ & _ & Hb).
  split; [exact Hs | apply Hb; reflexivity].
Defined.

Lemma variant_roll_agreement_witness :
  (Variant.roll game9_low None (Some 2) (mkDice 3 4)).1 = 7
  ∧ (Variant.roll game9_low None (Some 1) (mkDice 3 4)).1 = 3.
Proof.
  destruct variant_roll_agreement as (_ & _ & _ & H).
  split; rewrite H by reflexivity; vm_compute; reflexivity.
Defined.
